(** * Verification of [buffer.py]: the PPO batch sampler and the padding collator

    The development is a shallow embedding of [src/buffer.py].  Python
    integers are [Z], Python lists are [list], the dictionary returned by
    the collator is a [gmap] keyed by strings, and an exception is the
    [Raise] alternative of [result].  *)

From Stdlib Require Import ZArith Lia.
From Stdlib Require PrimFloat.
From stdpp Require Import base option list list_numbers gmap strings.

(** ** Exceptions *)

(** The exceptions that the modelled code can raise. *)
Inductive exn : Type :=
| ZeroDivisionError
| RuntimeError
| TypeError
| AttributeError.

Inductive result (A : Type) : Type :=
| Ok (a : A)
| Raise (e : exn).
Arguments Ok {A} a.
Arguments Raise {A} e.

(** Sequencing of computations that may raise: the first exception stops
    the run, as in Python. *)
Global Instance result_ret : MRet result := fun A a => Ok a.
Global Instance result_bind : MBind result := fun A B f r =>
  match r with
  | Ok a => f a
  | Raise e => Raise e
  end.

(** [len(l)] of a Python list. *)
Definition len {A : Type} (l : list A) : Z := Z.of_nat (length l).

(** [range(k)]: the integers [0, 1, ..., k-1], empty when [k <= 0]. *)
Definition range (k : Z) : list Z := seqZ 0 k.

(** ** The batch sampler (buffer.py, lines 45-67) *)

Module PPORLBatchSampler.
Local Open Scope Z_scope.

(** The sampler only ever asks its data source for its length, so the type
    of the stored items is left open. *)
Record t (D : Type) : Type := mk {
  data_source : list D;
  batch_size : Z
}.
Arguments mk {D} data_source batch_size.
Arguments data_source {D} _.
Arguments batch_size {D} _.

(** The state of the generator while it runs the [for] loop of lines 52-56:
    the groups yielded so far and the current [batch] list. *)
Definition loop_state : Type := list (list Z) * list Z.

(** One turn of the [for idx in range(len(self.data_source))] loop:
    [batch.append(idx)], then, if [len(batch) == self.batch_size], yield
    the batch and start a new empty one. *)
Definition for_body (batch_size : Z) (st : loop_state) (idx : Z) : loop_state :=
  let '(yielded, batch) := st in
  let batch := batch ++ [idx] in
  if decide (len batch = batch_size)
  then (yielded ++ [batch], [])
  else (yielded, batch).

Definition for_loop (n batch_size : Z) : loop_state :=
  foldl (for_body batch_size) ([], []) (range n).

(** Lines 61-62: [for i in range(...): batch.append(i)]. *)
Definition append_range (batch : list Z) (k : Z) : list Z :=
  foldl (fun b i => b ++ [i]) batch (range k).

(** Lines 60-63: the [while needed > 0] loop.  Taken on its own it need not
    terminate (with [n = 0] a turn appends nothing), so it runs on fuel and
    [None] stands for a run that has not finished within the fuel given. *)
Fixpoint while_loop (fuel : nat) (n batch_size needed : Z) (batch : list Z)
  : option (list Z) :=
  if decide (needed > 0) then
    match fuel with
    | O => None
    | S fuel' =>
        let batch := append_range batch (Z.min needed n) in
        while_loop fuel' n batch_size (batch_size - len batch) batch
    end
  else Some batch.

(** [__iter__]: the list of the groups the generator yields, in order. *)
Definition __iter__ {D : Type} (fuel : nat) (self : t D) : option (list (list Z)) :=
  let n := len (data_source self) in
  let '(yielded, batch) := for_loop n (batch_size self) in
  match batch with
  | [] => Some yielded
  | _ :: _ =>
      let needed := batch_size self - len batch in
      match while_loop fuel n (batch_size self) needed batch with
      | Some batch => Some (yielded ++ [batch])
      | None => None
      end
  end.

(** [__len__]: Python's [//] is floor division and raises on a zero divisor. *)
Definition __len__ {D : Type} (self : t D) : result Z :=
  if decide (batch_size self = 0) then Raise ZeroDivisionError
  else Ok ((len (data_source self) + batch_size self - 1) `div` batch_size self).

End PPORLBatchSampler.


(** ** Trajectory records (buffer.py, lines 11-41) *)

(** The entries of a float tensor are taken to be binary64 floats;
    [PrimFloat.zero] is the float [0.0].  The collator only moves them
    around. *)
Definition float : Type := PrimFloat.float.

(** A one-dimensional tensor is the list of its entries; a long tensor holds
    integers and a float tensor holds floats. *)
Record PPORLElement : Type := mkPPORLElement {
  input_ids : list Z;
  actions : list Z;
  logprobs : list float;
  values : list float;
  rewards : list float
}.

(** [PPORLVisionElement] inherits the five fields and adds [image_ids]. *)
Record PPORLVisionElement : Type := mkPPORLVisionElement {
  base : PPORLElement;
  image_ids : list Z
}.

(** An element of a batch is an instance of either class. *)
Inductive element : Type :=
| Plain (e : PPORLElement)
| Vision (v : PPORLVisionElement).

(** Attribute access [element.input_ids] and the like works on both classes. *)
Definition fields (element : element) : PPORLElement :=
  match element with
  | Plain e => e
  | Vision v => base v
  end.

(** [getattr(element, 'image_ids')], when the attribute exists. *)
Definition get_image_ids (element : element) : option (list Z) :=
  match element with
  | Plain _ => None
  | Vision v => Some (image_ids v)
  end.

(** [hasattr(element, 'image_ids')]. *)
Definition hasattr_image_ids (element : element) : bool :=
  bool_decide (is_Some (get_image_ids element)).

(** ** The dataset wrapper (buffer.py, lines 70-78) *)

Module PPORLVisionDataset.

Record t : Type := mk { ppo_rl_elements : list element }.

Definition __len__ (self : t) : Z := len (ppo_rl_elements self).

(** List indexing: a negative index counts from the end, an index out of
    range raises [IndexError], reported here as [None]. *)
Definition __getitem__ (self : t) (idx : Z) : option element :=
  let n := len (ppo_rl_elements self) in
  if decide (0 ≤ idx < n)%Z then ppo_rl_elements self !! Z.to_nat idx
  else if decide (- n ≤ idx < 0)%Z then ppo_rl_elements self !! Z.to_nat (n + idx)
  else None.

End PPORLVisionDataset.

(** ** Padding and stacking *)

(** A stacked batch: a two-dimensional tensor given by its rows. *)
Inductive Tensor2 : Type :=
| LongBatch (rows : list (list Z))
| FloatBatch (rows : list (list float)).

(** An entry of a Python list handed to [pad_sequence]: a one-dimensional
    tensor, or [None] (the placeholder of line 106). *)
Abbreviation entry A := (option (list A)) (only parsing).

(** Right-pad one sequence to [max_len]. *)
Definition pad_to {A : Type} (max_len : nat) (padding_value : A) (s : list A)
  : list A :=
  s ++ replicate (max_len - length s) padding_value.

(** Modelled from the spec: [torch.nn.utils.rnn.pad_sequence] is imported
    from the tensor library and is not part of the repository.  With
    [batch_first=True] and one-dimensional sequences it right-pads every
    sequence with [padding_value] to the greatest length among them and
    stacks the results as the rows of the output (steps 2 to 4 of the
    collator's algorithm).  The library function raises on an empty list of
    sequences, and on a list holding something that is not a tensor. *)
Definition pad_sequence {A : Type} (sequences : list (entry A)) (padding_value : A)
  : result (list (list A)) :=
  match sequences with
  | [] => Raise RuntimeError
  | _ :: _ =>
      match mapM id sequences with
      | None => Raise TypeError
      | Some tensors =>
          let max_len := max_list (length <$> tensors) in
          Ok (pad_to max_len padding_value <$> tensors)
      end
  end.

(** ** The collate function (buffer.py, lines 81-121) *)

(** The six accumulator lists of lines 83-88. *)
Record containers : Type := mkContainers {
  c_input_ids : list (entry Z);
  c_actions : list (entry Z);
  c_logprobs : list (entry float);
  c_values : list (entry float);
  c_rewards : list (entry float);
  c_image_ids : list (entry Z)
}.

Definition empty_containers : containers := mkContainers [] [] [] [] [] [].

(** Body of the [for element in batch] loop, lines 94-106. *)
Definition collect (has_image_ids : bool) (c : containers) (element : element)
  : containers :=
  let e := fields element in
  {| c_input_ids := c_input_ids c ++ [Some (input_ids e)];
     c_actions := c_actions c ++ [Some (actions e)];
     c_logprobs := c_logprobs c ++ [Some (logprobs e)];
     c_values := c_values c ++ [Some (values e)];
     c_rewards := c_rewards c ++ [Some (rewards e)];
     c_image_ids :=
       if has_image_ids then
         if hasattr_image_ids element
         then c_image_ids c ++ [get_image_ids element]
         else c_image_ids c ++ [None]
       else c_image_ids c |}.

(** The returned dictionary. *)
Abbreviation batch_dict := (gmap string Tensor2).

Definition ppo_rl_collate_fn (batch : list element) (pad_token_id : Z)
  : result batch_dict :=
  let has_image_ids := existsb hasattr_image_ids batch in
  let c := foldl (collect has_image_ids) empty_containers batch in
  b_input_ids ← pad_sequence (c_input_ids c) pad_token_id;
  b_actions ← pad_sequence (c_actions c) pad_token_id;
  b_logprobs ← pad_sequence (c_logprobs c) PrimFloat.zero;
  b_values ← pad_sequence (c_values c) PrimFloat.zero;
  b_rewards ← pad_sequence (c_rewards c) PrimFloat.zero;
  let batched_data : batch_dict :=
    <["rewards" := FloatBatch b_rewards]>
      (<["values" := FloatBatch b_values]>
        (<["logprobs" := FloatBatch b_logprobs]>
          (<["actions" := LongBatch b_actions]>
            (<["input_ids" := LongBatch b_input_ids]> ∅)))) in
  if has_image_ids then
    b_image_ids ← pad_sequence (c_image_ids c) 0%Z;
    Ok (<["image_ids" := LongBatch b_image_ids]> batched_data)
  else Ok batched_data.


(** ** The collate function over the object store *)

(** The functions above take records as values.  In Python the records, their
    tensors and the returned tensors are objects that the caller keeps
    references to.  This module runs the collate function over an explicit
    store of objects, so that what a call does to the objects it is given
    can be stated. *)

Module Heap.

(** A reference to an object. *)
Definition loc : Type := positive.

Inductive object : Type :=
| LongTensor (data : list Z)
| FloatTensor (data : list float)
| Batch (t : Tensor2)
| Instance (attrs : gmap string loc).

Abbreviation store := (gmap loc object).

(** A computation reads and updates the store and returns or raises. *)
Definition M (A : Type) : Type := store → result A * store.

Global Instance M_ret : MRet M := fun A a σ => (Ok a, σ).
Global Instance M_bind : MBind M := fun A B f m σ =>
  match m σ with
  | (Ok a, σ') => f a σ'
  | (Raise e, σ') => (Raise e, σ')
  end.

(** [getattr(o, name)]: the attribute of a class instance. *)
Definition getattr (o : loc) (name : string) : M loc := fun σ =>
  match σ !! o with
  | Some (Instance attrs) =>
      match attrs !! name with
      | Some l => (Ok l, σ)
      | None => (Raise AttributeError, σ)
      end
  | _ => (Raise AttributeError, σ)
  end.

(** [hasattr(o, name)]. *)
Definition hasattr (o : loc) (name : string) : M bool := fun σ =>
  match σ !! o with
  | Some (Instance attrs) => (Ok (bool_decide (is_Some (attrs !! name))), σ)
  | _ => (Ok false, σ)
  end.

(** Allocation of a new object, at a reference not in use. *)
Definition new (obj : object) : M loc := fun σ =>
  let l := fresh (dom σ) in (Ok l, <[l := obj]> σ).

(** The entry of a Python list as [pad_sequence] sees it: the data of the
    tensor it refers to, and [None] for anything else. *)
Definition read_long (σ : store) (entry : option loc) : option (list Z) :=
  match entry with
  | Some l => match σ !! l with Some (LongTensor data) => Some data | _ => None end
  | None => None
  end.

Definition read_float (σ : store) (entry : option loc) : option (list float) :=
  match entry with
  | Some l => match σ !! l with Some (FloatTensor data) => Some data | _ => None end
  | None => None
  end.

(** [pad_sequence] reads its arguments and allocates the stacked tensor. *)
Definition pad_sequence_long (sequences : list (option loc)) (padding_value : Z)
  : M loc := fun σ =>
  match pad_sequence (read_long σ <$> sequences) padding_value with
  | Ok rows => new (Batch (LongBatch rows)) σ
  | Raise e => (Raise e, σ)
  end.

Definition pad_sequence_float (sequences : list (option loc)) (padding_value : float)
  : M loc := fun σ =>
  match pad_sequence (read_float σ <$> sequences) padding_value with
  | Ok rows => new (Batch (FloatBatch rows)) σ
  | Raise e => (Raise e, σ)
  end.

(** [any(hasattr(element, name) for element in batch)]. *)
Fixpoint any_hasattr (batch : list loc) (name : string) : M bool :=
  match batch with
  | [] => mret false
  | element :: batch =>
      b ← hasattr element name;
      if b : bool then mret true else any_hasattr batch name
  end.

(** A [for] loop whose body runs in the store. *)
Fixpoint for_each {A B : Type} (body : A → B → M A) (a : A) (l : list B) : M A :=
  match l with
  | [] => mret a
  | x :: l => a' ← body a x; for_each body a' l
  end.

(** The six accumulator lists hold references. *)
Record containers : Type := mkContainers {
  c_input_ids : list (option loc);
  c_actions : list (option loc);
  c_logprobs : list (option loc);
  c_values : list (option loc);
  c_rewards : list (option loc);
  c_image_ids : list (option loc)
}.

Definition empty_containers : containers := mkContainers [] [] [] [] [] [].

(** Lines 94-106. *)
Definition collect (has_image_ids : bool) (c : containers) (element : loc)
  : M containers :=
  x_input_ids ← getattr element "input_ids";
  x_actions ← getattr element "actions";
  x_logprobs ← getattr element "logprobs";
  x_values ← getattr element "values";
  x_rewards ← getattr element "rewards";
  image_ids ←
    (if has_image_ids then
       b ← hasattr element "image_ids";
       if b : bool then
         x_image_ids ← getattr element "image_ids";
         mret (c_image_ids c ++ [Some x_image_ids])
       else mret (c_image_ids c ++ [None])
     else mret (c_image_ids c));
  mret {| c_input_ids := c_input_ids c ++ [Some x_input_ids];
          c_actions := c_actions c ++ [Some x_actions];
          c_logprobs := c_logprobs c ++ [Some x_logprobs];
          c_values := c_values c ++ [Some x_values];
          c_rewards := c_rewards c ++ [Some x_rewards];
          c_image_ids := image_ids |}.

(** Lines 81-121: the batch is a list of references to records, the
    returned dictionary maps each key to a newly allocated tensor. *)
Definition ppo_rl_collate_fn (batch : list loc) (pad_token_id : Z)
  : M (gmap string loc) :=
  has_image_ids ← any_hasattr batch "image_ids";
  c ← for_each (collect has_image_ids) empty_containers batch;
  b_input_ids ← pad_sequence_long (c_input_ids c) pad_token_id;
  b_actions ← pad_sequence_long (c_actions c) pad_token_id;
  b_logprobs ← pad_sequence_float (c_logprobs c) PrimFloat.zero;
  b_values ← pad_sequence_float (c_values c) PrimFloat.zero;
  b_rewards ← pad_sequence_float (c_rewards c) PrimFloat.zero;
  let batched_data : gmap string loc :=
    <["rewards" := b_rewards]>
      (<["values" := b_values]>
        (<["logprobs" := b_logprobs]>
          (<["actions" := b_actions]>
            (<["input_ids" := b_input_ids]> ∅)))) in
  if has_image_ids : bool then
    b_image_ids ← pad_sequence_long (c_image_ids c) 0%Z;
    mret (<["image_ids" := b_image_ids]> batched_data)
  else mret batched_data.

(** *** Reading the store *)

Definition long_at (σ : store) (l : loc) (data : list Z) : Prop :=
  σ !! l = Some (LongTensor data).

Definition float_at (σ : store) (l : loc) (data : list float) : Prop :=
  σ !! l = Some (FloatTensor data).

(** The attribute [name] of the instance refers to a tensor holding [data]. *)
Definition long_attr (σ : store) (attrs : gmap string loc) (name : string)
    (data : list Z) : Prop :=
  ∃ l, attrs !! name = Some l ∧ long_at σ l data.

Definition float_attr (σ : store) (attrs : gmap string loc) (name : string)
    (data : list float) : Prop :=
  ∃ l, attrs !! name = Some l ∧ float_at σ l data.

(** The object at [o] is the record [el]: an instance whose attributes
    refer to the tensors of [el], with an [image_ids] attribute exactly when
    [el] is a vision record. *)
Definition repr (σ : store) (o : loc) (el : element) : Prop :=
  ∃ attrs,
    σ !! o = Some (Instance attrs) ∧
    long_attr σ attrs "input_ids" (input_ids (fields el)) ∧
    long_attr σ attrs "actions" (actions (fields el)) ∧
    float_attr σ attrs "logprobs" (logprobs (fields el)) ∧
    float_attr σ attrs "values" (values (fields el)) ∧
    float_attr σ attrs "rewards" (rewards (fields el)) ∧
    match get_image_ids el with
    | Some data => long_attr σ attrs "image_ids" data
    | None => attrs !! "image_ids" = None
    end.

(** An entry of an accumulator list refers to the tensor [v], or both are
    the [None] placeholder. *)
Definition long_entry (σ : store) : option loc → option (list Z) → Prop :=
  option_Forall2 (long_at σ).

Definition float_entry (σ : store) : option loc → option (list float) → Prop :=
  option_Forall2 (float_at σ).

(** The outcome of a run over the store agrees with an outcome over values:
    the same exception, or a dictionary with the same keys whose references
    lead to the same stacked tensors. *)
Definition outcome (σ : store) (r : result (gmap string loc))
    (v : result (gmap string Tensor2)) : Prop :=
  match r, v with
  | Ok d, Ok dv => map_Forall2 (fun _ l t => σ !! l = Some (Batch t)) d dv
  | Raise e, Raise ev => e = ev
  | _, _ => False
  end.

(** Two outcomes over the store are the same: the same exception, or
    dictionaries with the same keys whose references lead to tensors of the
    same contents. *)
Definition same_outcome (σ : store) (r1 r2 : result (gmap string loc)) : Prop :=
  match r1, r2 with
  | Ok d1, Ok d2 =>
      map_Forall2 (fun _ l1 l2 =>
        ∃ t, σ !! l1 = Some (Batch t) ∧ σ !! l2 = Some (Batch t)) d1 d2
  | Raise e1, Raise e2 => e1 = e2
  | _, _ => False
  end.

(** Running [m] from [σ] ends in a store that extends [σ], with a result
    and a store that satisfy [Q]. *)
Definition wp {A : Type} (m : M A) (σ : store) (Q : result A → store → Prop)
  : Prop :=
  ∃ r σ', m σ = (r, σ') ∧ σ ⊆ σ' ∧ Q r σ'.

(** A store with one text record, at reference 1. *)
Definition sample_store : store :=
  <[1%positive := Instance (<["input_ids" := 2%positive]>
                            (<["actions" := 3%positive]>
                             (<["logprobs" := 4%positive]>
                              (<["values" := 5%positive]>
                               (<["rewards" := 6%positive]> ∅)))))]>
  (<[2%positive := LongTensor [11; 12]%Z]>
   (<[3%positive := LongTensor [1; 2; 3]%Z]>
    (<[4%positive := FloatTensor [PrimFloat.one]]>
     (<[5%positive := FloatTensor []]>
      (<[6%positive := FloatTensor [PrimFloat.two; PrimFloat.one]]> ∅))))).

Definition sample_record : element :=
  Plain (mkPPORLElement [11; 12] [1; 2; 3] [PrimFloat.one] []
           [PrimFloat.two; PrimFloat.one])%Z.

End Heap.

(** The accumulator lists of a run over the store refer to the tensors that
    the accumulator lists of the run over values hold. *)
Definition containers_repr (σ : gmap Heap.loc Heap.object)
    (c : Heap.containers) (v : containers) : Prop :=
  Forall2 (Heap.long_entry σ) (Heap.c_input_ids c) (c_input_ids v) ∧
  Forall2 (Heap.long_entry σ) (Heap.c_actions c) (c_actions v) ∧
  Forall2 (Heap.float_entry σ) (Heap.c_logprobs c) (c_logprobs v) ∧
  Forall2 (Heap.float_entry σ) (Heap.c_values c) (c_values v) ∧
  Forall2 (Heap.float_entry σ) (Heap.c_rewards c) (c_rewards v) ∧
  Forall2 (Heap.long_entry σ) (Heap.c_image_ids c) (c_image_ids v).

(** * Vocabulary of the statements *)

(** The indices appended by a refill of [needed] places over a data source
    of [n] items: position [j] of the refill holds [j mod n], so the refill
    runs through [0 .. n-1] again and again. *)
Definition wrap_fill (n needed : Z) : list Z :=
  (fun j => j `mod` n)%Z <$> range needed.

(** The sequences of one field, one per record, in the order of the batch. *)
Definition column {A : Type} (field : PPORLElement → list A) (batch : list element)
  : list (list A) :=
  (fun el => field (fields el)) <$> batch.

(** [m] is the greatest of the lengths [lens]. *)
Definition greatest (m : nat) (lens : list nat) : Prop :=
  m ∈ lens ∧ ∀ k, k ∈ lens → k ≤ m.

(** The rows of a stacked batch of either element type, as their lengths. *)
Definition row_lengths (t : Tensor2) : list nat :=
  match t with
  | LongBatch rows => length <$> rows
  | FloatBatch rows => length <$> rows
  end.

(** A stacked batch has shape [(nrows, ncols)]. *)
Definition has_shape (t : Tensor2) (nrows ncols : nat) : Prop :=
  length (row_lengths t) = nrows ∧ Forall (fun k => k = ncols) (row_lengths t).

(** The dictionary [out] has at [key] a batch of shape [(nrows, ncols)]. *)
Definition field_shape (out : gmap string Tensor2) (key : string) (nrows ncols : nat)
  : Prop :=
  ∃ t, out !! key = Some t ∧ has_shape t nrows ncols.

(** Row [i] of the long (respectively float) batch stored at [key]. *)
Definition long_row (out : gmap string Tensor2) (key : string) (i : nat)
  : option (list Z) :=
  match out !! key with
  | Some (LongBatch rows) => rows !! i
  | _ => None
  end.

Definition float_row (out : gmap string Tensor2) (key : string) (i : nat)
  : option (list float) :=
  match out !! key with
  | Some (FloatBatch rows) => rows !! i
  | _ => None
  end.

(** [row] starts with the sequence [s] and holds [fill] everywhere after. *)
Definition padded_row {A : Type} (row s : list A) (fill : A) : Prop :=
  take (length s) row = s ∧
  ∀ j, length s ≤ j → j < length row → row !! j = Some fill.

(** A record exposes an [image_ids] field. *)
Definition exposes_image_ids (el : element) : Prop := is_Some (get_image_ids el).

(** The records of a batch agree on whether they expose [image_ids]. *)
Definition uniform (batch : list element) : Prop :=
  Forall exposes_image_ids batch ∨ Forall (fun el => ¬ exposes_image_ids el) batch.

(** A record keeps the documented invariant: [actions], [logprobs],
    [values] and [rewards] have one and the same length. *)
Definition aligned (e : PPORLElement) : Prop :=
  length (logprobs e) = length (actions e) ∧
  length (values e) = length (actions e) ∧
  length (rewards e) = length (actions e).

(** ** Sample records *)

Module Samples.

Definition f1 : float := PrimFloat.one.
Definition f2 : float := PrimFloat.two.

(** A well-formed text record. *)
Definition e1 : element :=
  Plain (mkPPORLElement [11; 12] [1; 2; 3] [f1; f2; f1] [f2; f2; f1] [f1; f1; f2])%Z.

(** A text record whose per-action fields have four different lengths. *)
Definition e2 : element :=
  Plain (mkPPORLElement [21] [1; 2; 3; 4; 5] [f1] [] [f1; f2])%Z.

(** A vision record. *)
Definition v1 : element :=
  Vision (mkPPORLVisionElement
            (mkPPORLElement [31; 32; 33] [7] [f2] [f1] [f2]) [100; 101])%Z.

Definition v2 : element :=
  Vision (mkPPORLVisionElement
            (mkPPORLElement [41] [8; 9] [f1; f1] [f1; f2] [f2; f2]) [200; 201; 202])%Z.

End Samples.

(** ** The padded batch in closed form *)

(** All sequences right-padded to the greatest length among them. *)
Definition stack {A : Type} (seqs : list (list A)) (fill : A) : list (list A) :=
  pad_to (max_list (length <$> seqs)) fill <$> seqs.

(** The five entries that every returned dictionary holds. *)
Definition base_dict (batch : list element) (pad_token_id : Z) : gmap string Tensor2 :=
  <["rewards" := FloatBatch (stack (column rewards batch) PrimFloat.zero)]>
    (<["values" := FloatBatch (stack (column values batch) PrimFloat.zero)]>
      (<["logprobs" := FloatBatch (stack (column logprobs batch) PrimFloat.zero)]>
        (<["actions" := LongBatch (stack (column actions batch) pad_token_id)]>
          (<["input_ids" := LongBatch (stack (column input_ids batch) pad_token_id)]> ∅)))).

(** The batch stored at [key] has one row per record and as many columns
    as the longest sequence of [field] among the records. *)
Definition column_shape {A : Type} (out : gmap string Tensor2) (key : string)
    (field : PPORLElement → list A) (batch : list element) : Prop :=
  ∃ m, greatest m (length <$> column field batch) ∧
       field_shape out key (length batch) m.

(** ** Vocabulary of the further properties *)

(** The records at the indices of a group, [[dataset[i] for i in group]];
    [None] when some index raises [IndexError]. *)
Definition fetch (dataset : PPORLVisionDataset.t) (group : list Z)
  : option (list element) :=
  mapM (PPORLVisionDataset.__getitem__ dataset) group.

(** The five keys that every returned dictionary has. *)
Definition base_keys : gset string :=
  {[ "input_ids"; "actions"; "logprobs"; "values"; "rewards" ]}.

(** The attributes that the collate function reads from every record. *)
Definition field_names : list string :=
  ["input_ids"; "actions"; "logprobs"; "values"; "rewards"].

(** The object at [o] cannot serve as a record: it is not a class instance,
    or it is one that lacks some of the five attributes. *)
Definition lacks_field (σ : gmap Heap.loc Heap.object) (o : Heap.loc) : Prop :=
  ∀ attrs, σ !! o = Some (Heap.Instance attrs) →
           ∃ name, name ∈ field_names ∧ attrs !! name = None.

(** A computation that leaves the store as it found it. *)
Definition reads_only {A : Type} (m : Heap.M A) : Prop :=
  ∀ σ, ∃ r, m σ = (r, σ).

(** A computation that only adds objects to the store, and never raises
    [AttributeError]. *)
Definition allocates {A : Type} (m : Heap.M A) : Prop :=
  ∀ σ r σ', m σ = (r, σ') → σ ⊆ σ' ∧ r ≠ Raise AttributeError.

(** * Properties of the batch sampler *)

Module SamplerFacts.
Import PPORLBatchSampler.
Local Open Scope Z_scope.

Section Lists.
Context {A : Type}.
Implicit Types (l batch : list A) (groups : list (list A)).

Lemma len_nil : len (@nil A) = 0.
Proof. reflexivity. Qed.

Lemma len_app l1 l2 : len (l1 ++ l2) = len l1 + len l2.
Proof. unfold len. rewrite length_app. lia. Qed.

Lemma len_nonneg l : 0 ≤ len l.
Proof. unfold len. lia. Qed.

Lemma len_cons_pos (x : A) l : 1 ≤ len (x :: l).
Proof. unfold len. simpl. lia. Qed.

Lemma foldl_snoc batch l : foldl (fun b i => b ++ [i]) batch l = batch ++ l.
Proof.
  revert batch. induction l as [|i l IH]; intros batch; simpl.
  - by rewrite app_nil_r.
  - rewrite IH, <- app_assoc. reflexivity.
Qed.

Lemma len_concat_uniform groups (k : Z) :
  Forall (fun g => len g = k) groups → len (concat groups) = len groups * k.
Proof.
  induction 1 as [|g groups Hg _ IH]; [reflexivity|].
  simpl. rewrite len_app, IH, Hg. unfold len. simpl length. lia.
Qed.

End Lists.

Lemma len_range k : 0 ≤ k → len (range k) = k.
Proof. intros. unfold len, range. rewrite length_seqZ. lia. Qed.

Lemma range_nonpos k : k ≤ 0 → range k = [].
Proof. apply seqZ_nil. Qed.

Lemma range_succ (m : nat) : range (Z.of_nat (S m)) = range (Z.of_nat m) ++ [Z.of_nat m].
Proof. unfold range. rewrite seqZ_S. reflexivity. Qed.

Lemma append_range_app batch k : append_range batch k = batch ++ range k.
Proof. apply foldl_snoc. Qed.

(** A suffix of [0 .. n-1] is the run of its last indices. *)
Lemma range_suffix n (l1 l2 : list Z) :
  0 ≤ n → l1 ++ l2 = range n → l2 = seqZ (n - len l2) (len l2).
Proof.
  intros Hn Heq.
  assert (Hlen : len l1 + len l2 = n).
  { rewrite <- len_app, Heq. by apply len_range. }
  pose proof (len_nonneg l1). pose proof (len_nonneg l2).
  unfold range in Heq.
  replace n with (len l1 + len l2) in Heq at 1 by lia.
  rewrite seqZ_app in Heq by lia.
  apply app_inj_2 in Heq as [_ Heq].
  - rewrite Heq at 1. f_equal. lia.
  - rewrite length_seqZ. unfold len. lia.
Qed.

(** ** The main pass *)

Lemma for_loop_0 bs : for_loop 0 bs = ([], []).
Proof. reflexivity. Qed.

Lemma for_loop_succ bs (m : nat) :
  for_loop (Z.of_nat (S m)) bs = for_body bs (for_loop (Z.of_nat m) bs) (Z.of_nat m).
Proof. unfold for_loop. rewrite range_succ, foldl_app. reflexivity. Qed.

(** What the main pass has produced after the indices [0 .. m-1]. *)
Lemma for_loop_inv bs (m : nat) yielded batch :
  1 ≤ bs →
  for_loop (Z.of_nat m) bs = (yielded, batch) →
  concat yielded ++ batch = range (Z.of_nat m) ∧
  Forall (fun g => len g = bs) yielded ∧
  len batch < bs.
Proof.
  intros Hbs. revert yielded batch.
  induction m as [|m IH]; intros yielded batch Hrun.
  - rewrite for_loop_0 in Hrun. injection Hrun as <- <-.
    split_and!; [done|constructor|rewrite len_nil; lia].
  - rewrite for_loop_succ in Hrun.
    destruct (for_loop (Z.of_nat m) bs) as [y0 b0].
    destruct (IH y0 b0 eq_refl) as (Hcat & Hfull & Hlt).
    unfold for_body in Hrun. case_decide as Hfullb; injection Hrun as <- <-.
    + split_and!.
      * rewrite concat_app. simpl. rewrite !app_nil_r, range_succ, <- Hcat.
        by rewrite app_assoc.
      * apply Forall_app. split; [done|]. by repeat constructor.
      * rewrite len_nil. lia.
    + split_and!.
      * by rewrite range_succ, <- Hcat, app_assoc.
      * done.
      * rewrite len_app in *. change (len [Z.of_nat m]) with 1 in *. lia.
Qed.

(** With a batch size below one the size test never fires. *)
Lemma for_loop_nonpos bs (m : nat) :
  bs ≤ 0 → for_loop (Z.of_nat m) bs = ([], range (Z.of_nat m)).
Proof.
  intros Hbs. induction m as [|m IH]; [reflexivity|].
  rewrite for_loop_succ, IH, range_succ. unfold for_body.
  case_decide as Heq; [|reflexivity].
  rewrite len_app in Heq. pose proof (len_nonneg (range (Z.of_nat m))).
  change (len [Z.of_nat m]) with 1 in Heq. lia.
Qed.

(** ** The refill loop *)

Lemma wrap_fill_nonpos n needed : needed ≤ 0 → wrap_fill n needed = [].
Proof. intros. unfold wrap_fill. by rewrite range_nonpos. Qed.

Lemma wrap_fill_small n k : 0 ≤ k ≤ n → wrap_fill n k = range k.
Proof.
  intros Hk. unfold wrap_fill, range.
  apply list_eq. intros i. rewrite list_lookup_fmap.
  destruct (decide (Z.of_nat i < k)) as [Hi|Hi].
  - rewrite lookup_seqZ_lt by done. simpl. f_equal. apply Z.mod_small. lia.
  - by rewrite lookup_seqZ_ge by lia.
Qed.

Lemma wrap_fill_step n needed :
  1 ≤ n → 0 < needed →
  wrap_fill n needed
  = range (Z.min needed n) ++ wrap_fill n (needed - Z.min needed n).
Proof.
  intros Hn Hneeded.
  destruct (decide (needed ≤ n)) as [Hle|Hgt].
  - rewrite Z.min_l by done. rewrite Z.sub_diag, (wrap_fill_nonpos n 0) by lia.
    rewrite app_nil_r. apply wrap_fill_small. lia.
  - rewrite Z.min_r by lia. unfold wrap_fill at 1, range.
    replace needed with (n + (needed - n)) at 1 by lia.
    rewrite seqZ_app, fmap_app by lia.
    fold (range n). fold (wrap_fill n n). rewrite wrap_fill_small by lia.
    f_equal. unfold wrap_fill, range.
    rewrite <- (Z.add_0_r (0 + n)), <- fmap_add_seqZ, <- list_fmap_compose.
    apply list_fmap_ext. intros _ j _. simpl.
    replace (0 + n + j) with (j + 1 * n) by lia. apply Z.mod_add. lia.
Qed.

Lemma len_wrap_fill n needed : 0 ≤ needed → len (wrap_fill n needed) = needed.
Proof.
  intros. unfold wrap_fill, len. rewrite length_fmap.
  fold (len (range needed)). by apply len_range.
Qed.

Lemma wrap_fill_bounds n needed :
  1 ≤ n → Forall (fun i => 0 ≤ i < n) (wrap_fill n needed).
Proof.
  intros Hn. unfold wrap_fill. apply Forall_fmap, Forall_forall.
  intros j _. simpl. apply Z.mod_pos_bound. lia.
Qed.

(** The refill loop finishes within [needed] turns and appends the wrapped
    indices. *)
Lemma while_loop_spec n bs :
  1 ≤ n →
  ∀ (fuel : nat) needed batch,
    needed = bs - len batch →
    (Z.to_nat needed ≤ fuel)%nat →
    while_loop fuel n bs needed batch = Some (batch ++ wrap_fill n needed).
Proof.
  intros Hn. induction fuel as [|fuel IH]; intros needed batch Hneeded Hfuel.
  - simpl. case_decide; [lia|]. by rewrite wrap_fill_nonpos, app_nil_r by lia.
  - simpl. case_decide as Hpos.
    + rewrite append_range_app.
      assert (Hlen : len (batch ++ range (Z.min needed n))
                     = len batch + Z.min needed n).
      { rewrite len_app, len_range; lia. }
      rewrite (IH _ _ eq_refl) by lia.
      rewrite Hlen.
      replace (bs - (len batch + Z.min needed n))
        with (needed - Z.min needed n) by lia.
      rewrite <- app_assoc, <- wrap_fill_step by lia. reflexivity.
    + by rewrite wrap_fill_nonpos, app_nil_r by lia.
Qed.

(** The loop is skipped altogether when nothing is needed. *)
Lemma while_loop_skip fuel n bs needed batch :
  needed ≤ 0 → while_loop fuel n bs needed batch = Some batch.
Proof. intros. destruct fuel; simpl; case_decide; done || lia. Qed.

(** More fuel never changes the result of a run that has finished. *)
Lemma while_loop_mono n bs (fuel fuel' : nat) needed batch result :
  (fuel ≤ fuel')%nat →
  while_loop fuel n bs needed batch = Some result →
  while_loop fuel' n bs needed batch = Some result.
Proof.
  revert fuel' needed batch.
  induction fuel as [|fuel IH]; intros fuel' needed batch Hle Hrun.
  - simpl in Hrun. case_decide; [done|].
    rewrite while_loop_skip by lia. done.
  - destruct fuel' as [|fuel']; [lia|].
    simpl in *. case_decide; [|done].
    apply IH; [lia|done].
Qed.

Lemma iter_mono {D : Type} (self : t D) (fuel fuel' : nat) groups :
  (fuel ≤ fuel')%nat →
  __iter__ fuel self = Some groups → __iter__ fuel' self = Some groups.
Proof.
  intros Hle. unfold __iter__.
  destruct (for_loop _ _) as [yielded batch].
  destruct batch as [|i batch]; [done|].
  destruct (while_loop fuel _ _ _ _) as [final|] eqn:Hrun; [|done].
  by rewrite (while_loop_mono _ _ fuel fuel' _ _ final Hle Hrun).
Qed.

(** ** The whole iteration *)

(** The groups yielded by a sampler with a batch size of at least one: the
    full groups of the main pass, then the refilled partial group if the
    main pass left one.  A fuel of [batch_size] is enough for the refill. *)
Lemma iter_spec {D : Type} (ds : list D) (bs : Z) :
  1 ≤ bs →
  ∃ full part,
    for_loop (len ds) bs = (full, part) ∧
    concat full ++ part = range (len ds) ∧
    Forall (fun g => len g = bs) full ∧
    len part < bs ∧
    ∀ fuel : nat, (Z.to_nat bs ≤ fuel)%nat →
      __iter__ fuel (mk ds bs)
      = Some (full ++ match part with
                      | [] => []
                      | _ :: _ => [part ++ wrap_fill (len ds) (bs - len part)]
                      end).
Proof.
  intros Hbs.
  destruct (for_loop (len ds) bs) as [full part] eqn:Hrun.
  destruct (for_loop_inv bs (length ds) full part Hbs Hrun) as (Hcat & Hfull & Hlt).
  exists full, part. split_and!; try done.
  intros fuel Hfuel. unfold __iter__. simpl. rewrite Hrun.
  destruct part as [|i part]; [by rewrite app_nil_r|].
  assert (Hn : 1 ≤ len ds).
  { destruct ds; [|apply len_cons_pos].
    by destruct (concat full). }
  pose proof (len_cons_pos i part).
  rewrite (while_loop_spec (len ds) bs Hn fuel _ _ eq_refl) by lia.
  reflexivity.
Qed.

(** C1.  For a data source of [n >= 1] items and a batch size of at least
    one, the sampler yields [ceil(n / batch_size)] groups (the count [k]
    with [(k-1) * batch_size < n <= k * batch_size]), each of exactly
    [batch_size] indices, all in [[0, n)]; the first [n] indices of the
    groups laid end to end are [0 .. n-1] in order; and [__len__] returns
    the same count. *)
Theorem sampler_groups {D : Type} (ds : list D) (bs : Z) :
  1 ≤ len ds → 1 ≤ bs →
  ∃ groups,
    (∀ fuel : nat, (Z.to_nat bs ≤ fuel)%nat →
       __iter__ fuel (mk ds bs) = Some groups) ∧
    (len groups - 1) * bs < len ds ≤ len groups * bs ∧
    Forall (fun g => len g = bs) groups ∧
    Forall (Forall (fun i => 0 ≤ i < len ds)) groups ∧
    take (Z.to_nat (len ds)) (concat groups) = range (len ds) ∧
    __len__ (mk ds bs) = Ok (len groups).
Proof.
  intros Hn Hbs.
  destruct (iter_spec ds bs Hbs)
    as (full & part & _ & Hcat & Hfull & Hlt & Hiter).
  set (n := len ds) in *.
  set (last := match part with
               | [] => []
               | _ :: _ => [part ++ wrap_fill n (bs - len part)]
               end) in *.
  assert (Htotal : len full * bs + len part = n).
  { rewrite <- (len_concat_uniform full bs Hfull), <- len_app, Hcat.
    apply len_range. lia. }
  assert (Hbounds : Forall (fun i => 0 ≤ i < n) (concat full ++ part)).
  { rewrite Hcat. unfold range. apply Forall_seqZ. lia. }
  apply Forall_app in Hbounds as [Hbfull Hbpart].
  pose proof (len_nonneg part) as Hpart0.
  assert (Hcount : (len (full ++ last) - 1) * bs < n ≤ len (full ++ last) * bs).
  { rewrite len_app. subst last. destruct part as [|i part].
    - pose proof (len_nonneg full). rewrite (@len_nil Z) in Htotal.
      rewrite (@len_nil (list Z)). nia.
    - pose proof (len_cons_pos i part). pose proof (len_nonneg full).
      change (len [_]) with 1. nia. }
  exists (full ++ last). split_and!.
  - done.
  - lia.
  - lia.
  - apply Forall_app. split; [done|]. subst last.
    destruct part as [|i part]; [constructor|].
    constructor; [|constructor].
    rewrite len_app, len_wrap_fill; lia.
  - apply Forall_app. split.
    + clear -Hbfull. induction full as [|g full IH]; [constructor|].
      simpl in Hbfull. apply Forall_app in Hbfull as [??].
      constructor; auto.
    + subst last. destruct part as [|i part]; [constructor|].
      constructor; [|constructor].
      apply Forall_app. split; [done|]. apply wrap_fill_bounds. lia.
  - assert (Hshape : ∃ fill, concat (full ++ last) = range n ++ fill).
    { rewrite concat_app, <- Hcat. subst last. destruct part as [|i part].
      - exists []. simpl. by rewrite !app_nil_r.
      - eexists. simpl. rewrite app_nil_r, <- !app_assoc. reflexivity. }
    destruct Hshape as [fill ->].
    replace (Z.to_nat n) with (length (range n)).
    + by rewrite take_app_length.
    + unfold range. by rewrite length_seqZ.
  - unfold __len__. simpl. case_decide; [lia|]. f_equal. fold n.
    symmetry. apply (Z.div_unique_pos _ _ _ (n + bs - 1 - bs * len (full ++ last))); lia.
Qed.

Lemma sampler_groups_witness :
  ∃ groups,
    (∀ fuel : nat, (Z.to_nat 3 ≤ fuel)%nat →
       __iter__ fuel (mk (replicate 7 ()) 3) = Some groups) ∧
    (len groups - 1) * 3 < len (replicate 7 ()) ≤ len groups * 3 ∧
    Forall (fun g => len g = 3) groups ∧
    Forall (Forall (fun i => 0 ≤ i < len (replicate 7 ()))) groups ∧
    take (Z.to_nat (len (replicate 7 ()))) (concat groups)
    = range (len (replicate 7 ())) ∧
    __len__ (mk (replicate 7 ()) 3) = Ok (len groups).
Proof.
  apply (sampler_groups (replicate 7 ()) 3); [unfold len; simpl; lia | lia].
Defined.

(** C2.  When the main pass leaves a partial group of [s] indices with
    [1 <= s < batch_size] (these are the last [s] indices of the data
    source), the sampler appends to it the indices [0, 1, ...] taken modulo
    [n], in order, until it holds [batch_size] indices, and yields it as the
    final group after the groups of the main pass.  For seven items and a
    batch size of three the groups are [[0,1,2]], [[3,4,5]], [[6,0,1]]; for
    two items and a batch size of five the only group is [[0,1,0,1,0]]. *)
Theorem sampler_wrap_refill {D : Type} (ds : list D) (bs : Z)
    (yielded : list (list Z)) (partial : list Z) :
  for_loop (len ds) bs = (yielded, partial) →
  1 ≤ len partial < bs →
  let final := partial ++ ((fun j => j `mod` len ds) <$> range (bs - len partial)) in
  (partial = seqZ (len ds - len partial) (len partial) ∧
   (∀ fuel : nat, (Z.to_nat bs ≤ fuel)%nat →
      __iter__ fuel (mk ds bs) = Some (yielded ++ [final])) ∧
   len final = bs) ∧
  __iter__ 3 (mk (replicate 7 ()) 3) = Some [[0; 1; 2]; [3; 4; 5]; [6; 0; 1]] ∧
  __iter__ 5 (mk (replicate 2 ()) 5) = Some [[0; 1; 0; 1; 0]].
Proof.
  intros Hrun Hs final. split; [|split; reflexivity].
  destruct (iter_spec ds bs ltac:(lia))
    as (full & part & Hrun' & Hcat & _ & _ & Hiter).
  rewrite Hrun in Hrun'. injection Hrun' as <- <-.
  split_and!.
  - apply (range_suffix _ (concat yielded)); [apply len_nonneg|done].
  - intros fuel Hfuel. rewrite (Hiter fuel Hfuel).
    destruct partial; [|reflexivity].
    rewrite len_nil in Hs. lia.
  - subst final. fold (wrap_fill (len ds) (bs - len partial)).
    rewrite len_app, len_wrap_fill; lia.
Qed.

Lemma sampler_wrap_refill_witness :
  __iter__ 5 (mk (replicate 2 ()) 5)
  = Some ([] ++ [[0; 1] ++ ((fun j => j `mod` 2) <$> range (5 - 2))]).
Proof.
  refine (proj1 (proj2 (proj1
    (sampler_wrap_refill (replicate 2 ()) 5 [] [0; 1] _ _))) 5%nat _).
  - reflexivity.
  - unfold len. simpl. lia.
  - lia.
Defined.

(** C3.  With an empty data source and a batch size of at least one the
    sampler yields no group, whatever the fuel, and [__len__] returns 0. *)
Theorem sampler_empty {D : Type} (ds : list D) (bs : Z) (fuel : nat) :
  len ds = 0 → 1 ≤ bs →
  __iter__ fuel (mk ds bs) = Some [] ∧ __len__ (mk ds bs) = Ok 0.
Proof.
  intros Hn Hbs. destruct ds; [|pose proof (len_cons_pos d ds); lia].
  split; [reflexivity|].
  unfold __len__. simpl. case_decide; [lia|].
  f_equal. rewrite len_nil. apply Z.div_small. lia.
Qed.

Lemma sampler_empty_witness :
  __iter__ 0 (mk (@nil unit) 4) = Some [] ∧ __len__ (mk (@nil unit) 4) = Ok 0.
Proof. apply (sampler_empty (@nil unit) 4 0); [reflexivity | lia]. Defined.

(** C10.  With a batch size of zero and [n >= 1] items the sampler raises
    nothing while iterating: whatever the fuel it yields the single group
    [[0, 1, ..., n-1]], of length [n]; the size test of the main pass never
    fires and the refill loop is skipped because [needed = -n] is negative;
    [__len__] raises [ZeroDivisionError]. *)
Theorem sampler_zero_batch_size {D : Type} (ds : list D) (fuel : nat) :
  1 ≤ len ds →
  for_loop (len ds) 0 = ([], range (len ds)) ∧
  0 - len (range (len ds)) < 0 ∧
  __iter__ fuel (mk ds 0) = Some [range (len ds)] ∧
  len (range (len ds)) = len ds ∧
  __len__ (mk ds 0) = Raise ZeroDivisionError.
Proof.
  intros Hn.
  assert (Hrun : for_loop (len ds) 0 = ([], range (len ds))).
  { apply for_loop_nonpos. lia. }
  assert (Hlen : len (range (len ds)) = len ds) by (apply len_range; lia).
  split_and!; [done|lia| |done|reflexivity].
  unfold __iter__. simpl. rewrite Hrun.
  destruct (range (len ds)) as [|i l] eqn:Hrange.
  - rewrite len_nil in Hlen. lia.
  - rewrite while_loop_skip by lia. reflexivity.
Qed.

Lemma sampler_zero_batch_size_witness :
  __iter__ 0 (mk (replicate 3 ()) 0) = Some [[0; 1; 2]] ∧
  __len__ (mk (replicate 3 ()) 0) = Raise ZeroDivisionError.
Proof.
  destruct (sampler_zero_batch_size (replicate 3 ()) 0) as (_ & _ & Hiter & _ & Hlen);
    [unfold len; simpl; lia|].
  split; [exact Hiter | exact Hlen].
Defined.

End SamplerFacts.

(** * Properties of the collate function *)

Module CollateFacts.

(** ** Padding and stacking *)

Lemma mapM_id_fmap {A B : Type} (g : B → option A) (l : list B) :
  mapM id (g <$> l) = mapM g l.
Proof.
  induction l as [|x l IH]; [done|]. csimpl.
  destruct (g x) as [y|]; [|done].
  exact (f_equal (fun m => m ≫= fun k => mret (y :: k)) IH).
Qed.

Section Padding.
Context {A : Type}.
Implicit Types (s row : list A) (seqs : list (list A)) (fill : A).

Lemma length_pad_to m fill s : length s ≤ m → length (pad_to m fill s) = m.
Proof. intros. unfold pad_to. rewrite length_app, length_replicate. lia. Qed.

Lemma pad_to_padded m fill s : padded_row (pad_to m fill s) s fill.
Proof.
  unfold pad_to. split.
  - by rewrite take_app_length.
  - intros j Hge Hlt. rewrite lookup_app_r by done.
    apply lookup_replicate_2.
    rewrite length_app, length_replicate in Hlt. lia.
Qed.

Lemma length_stack seqs fill : length (stack seqs fill) = length seqs.
Proof. unfold stack. by rewrite length_fmap. Qed.

Lemma lookup_stack seqs fill i s :
  seqs !! i = Some s →
  stack seqs fill !! i = Some (pad_to (max_list (length <$> seqs)) fill s).
Proof. intros Hs. unfold stack. by rewrite list_lookup_fmap, Hs. Qed.

Lemma stack_row_lengths seqs fill :
  Forall (fun k => k = max_list (length <$> seqs)) (length <$> stack seqs fill).
Proof.
  apply Forall_fmap, Forall_forall. intros row Hrow. simpl.
  unfold stack in Hrow. apply list_elem_of_fmap in Hrow as (s & -> & Hs).
  apply length_pad_to, max_list_elem_of_le, list_elem_of_fmap. eauto.
Qed.

Lemma greatest_max_list (lens : list nat) : lens ≠ [] → greatest (max_list lens) lens.
Proof.
  intros Hne. split; [by apply max_list_elem_of|].
  intros k. apply max_list_elem_of_le.
Qed.

(** On a non-empty list of tensors [pad_sequence] returns the stack. *)
Lemma pad_sequence_tensors seqs fill :
  seqs ≠ [] → pad_sequence (Some <$> seqs) fill = Ok (stack seqs fill).
Proof.
  intros Hne. unfold pad_sequence.
  destruct seqs as [|s seqs]; [done|].
  rewrite (mapM_fmap_Some _ Some (s :: seqs)) by done.
  reflexivity.
Qed.

(** A [None] among the entries makes [pad_sequence] raise. *)
Lemma pad_sequence_None (entries : list (option (list A))) fill :
  None ∈ entries → pad_sequence entries fill = Raise TypeError.
Proof.
  intros Hin. unfold pad_sequence.
  destruct entries as [|x entries]; [by apply elem_of_nil in Hin|].
  assert (mapM id (x :: entries) = None) as ->; [|done].
  apply mapM_None, Exists_exists. by exists None.
Qed.

End Padding.

(** ** The accumulation loop *)

Lemma hasattr_image_ids_spec el : hasattr_image_ids el = true ↔ exposes_image_ids el.
Proof. unfold hasattr_image_ids. apply bool_decide_eq_true. Qed.

Lemma existsb_hasattr batch :
  existsb hasattr_image_ids batch = true ↔ Exists exposes_image_ids batch.
Proof.
  rewrite existsb_exists, Exists_exists.
  setoid_rewrite hasattr_image_ids_spec. setoid_rewrite list_elem_of_In.
  reflexivity.
Qed.

(** Line 106 appends [None] exactly where the attribute lookup would have
    nothing to return. *)
Lemma collect_image_ids el (l : list (option (list Z))) :
  (if hasattr_image_ids el then l ++ [get_image_ids el] else l ++ [None])
  = l ++ [get_image_ids el].
Proof. by destruct el. Qed.

Lemma foldl_collect h batch c :
  foldl (collect h) c batch
  = {| c_input_ids := c_input_ids c ++ (Some <$> column input_ids batch);
       c_actions := c_actions c ++ (Some <$> column actions batch);
       c_logprobs := c_logprobs c ++ (Some <$> column logprobs batch);
       c_values := c_values c ++ (Some <$> column values batch);
       c_rewards := c_rewards c ++ (Some <$> column rewards batch);
       c_image_ids :=
         if h then c_image_ids c ++ (get_image_ids <$> batch)
         else c_image_ids c |}.
Proof.
  revert c. induction batch as [|el batch IH]; intros c.
  - destruct c, h; unfold column; simpl; by rewrite !app_nil_r.
  - simpl. rewrite IH. unfold collect, column. simpl.
    destruct h; rewrite ?collect_image_ids, <- ?app_assoc; reflexivity.
Qed.

Lemma column_nonempty {A : Type} (field : PPORLElement → list A) batch :
  batch ≠ [] → column field batch ≠ [].
Proof. by destruct batch. Qed.

(** ** The collate function in closed form *)

Lemma collate_nil pad : ppo_rl_collate_fn [] pad = Raise RuntimeError.
Proof. reflexivity. Qed.

Lemma collate_unfold batch pad :
  batch ≠ [] →
  ppo_rl_collate_fn batch pad
  = if existsb hasattr_image_ids batch then
      match mapM get_image_ids batch with
      | Some imgs =>
          Ok (<["image_ids" := LongBatch (stack imgs 0%Z)]> (base_dict batch pad))
      | None => Raise TypeError
      end
    else Ok (base_dict batch pad).
Proof.
  intros Hne. unfold ppo_rl_collate_fn.
  rewrite foldl_collect. simpl.
  rewrite !pad_sequence_tensors by by apply column_nonempty.
  simpl. destruct (existsb hasattr_image_ids batch); [|reflexivity].
  unfold pad_sequence. destruct batch as [|el batch]; [done|].
  rewrite mapM_id_fmap. change (get_image_ids <$> el :: batch)
    with (get_image_ids el :: (get_image_ids <$> batch)). cbv beta iota.
  destruct (mapM get_image_ids (el :: batch)) as [imgs|]; reflexivity.
Qed.

(** ** Which batches are collated *)

Lemma existsb_hasattr_false batch :
  existsb hasattr_image_ids batch = false ↔
  Forall (fun el => ¬ exposes_image_ids el) batch.
Proof.
  rewrite <- not_true_iff_false, existsb_hasattr, <- Forall_Exists_neg.
  reflexivity.
Qed.

Lemma mapM_get_image_ids batch :
  Forall exposes_image_ids batch → is_Some (mapM get_image_ids batch).
Proof. intros Hall. by apply mapM_is_Some. Qed.

(** A batch mixing records with and without [image_ids] makes the last
    [pad_sequence] call raise on the [None] placeholder. *)
Lemma collate_mixed batch pad :
  Exists exposes_image_ids batch →
  Exists (fun el => ¬ exposes_image_ids el) batch →
  ppo_rl_collate_fn batch pad = Raise TypeError.
Proof.
  intros Hsome Hnot.
  assert (Hne : batch ≠ []) by (by destruct Hsome).
  rewrite collate_unfold by done.
  apply existsb_hasattr in Hsome as ->.
  assert (mapM get_image_ids batch = None) as ->; [|done].
  apply mapM_None. eapply Exists_impl; [exact Hnot|].
  intros el Hel. simpl in Hel. unfold exposes_image_ids in Hel.
  by destruct (get_image_ids el); [destruct Hel; eauto|].
Qed.

Lemma collate_uniform batch pad :
  batch ≠ [] → uniform batch → ∃ out, ppo_rl_collate_fn batch pad = Ok out.
Proof.
  intros Hne Huni. rewrite collate_unfold by done.
  destruct (existsb hasattr_image_ids batch) eqn:Hany; [|eauto].
  destruct Huni as [Hall|Hnone].
  - destruct (mapM_get_image_ids batch Hall) as [imgs ->]. eauto.
  - apply existsb_hasattr_false in Hnone. congruence.
Qed.

(** What a returned dictionary is. *)
Lemma collate_Ok_inv batch pad out :
  ppo_rl_collate_fn batch pad = Ok out →
  batch ≠ [] ∧
  ((Forall (fun el => ¬ exposes_image_ids el) batch ∧ out = base_dict batch pad) ∨
   (Exists exposes_image_ids batch ∧
    ∃ imgs, mapM get_image_ids batch = Some imgs ∧
            out = <["image_ids" := LongBatch (stack imgs 0%Z)]> (base_dict batch pad))).
Proof.
  intros Hok.
  assert (Hne : batch ≠ []).
  { intros ->. by rewrite collate_nil in Hok. }
  split; [done|]. rewrite collate_unfold in Hok by done.
  destruct (existsb hasattr_image_ids batch) eqn:Hany.
  - right. split; [by apply existsb_hasattr|].
    destruct (mapM get_image_ids batch) as [imgs|]; [|done].
    injection Hok as <-. eauto.
  - left. split; [by apply existsb_hasattr_false|]. by injection Hok as <-.
Qed.

(** ** Reading the returned dictionary *)

Ltac lookup_key :=
  unfold base_dict;
  repeat (rewrite lookup_insert_ne by done);
  first [rewrite lookup_insert_eq | rewrite lookup_empty]; try reflexivity.

Lemma base_dict_image_ids batch pad : base_dict batch pad !! "image_ids" = None.
Proof. lookup_key. Qed.

Lemma has_shape_long (seqs : list (list Z)) fill :
  has_shape (LongBatch (stack seqs fill)) (length seqs) (max_list (length <$> seqs)).
Proof.
  split; simpl.
  - by rewrite length_fmap, length_stack.
  - apply stack_row_lengths.
Qed.

Lemma has_shape_long_column field batch fill :
  has_shape (LongBatch (stack (column field batch) fill))
    (length batch) (max_list (length <$> column field batch)).
Proof.
  replace (length batch) with (length (column field batch)).
  - apply has_shape_long.
  - unfold column. apply length_fmap.
Qed.

Lemma has_shape_float_column field batch fill :
  has_shape (FloatBatch (stack (column field batch) fill))
    (length batch) (max_list (length <$> column field batch)).
Proof.
  split; simpl.
  - unfold column. by rewrite length_fmap, length_stack, length_fmap.
  - apply stack_row_lengths.
Qed.

Lemma length_column {A : Type} (field : PPORLElement → list A) batch :
  length (column field batch) = length batch.
Proof. unfold column. apply length_fmap. Qed.

Lemma lookup_column {A : Type} (field : PPORLElement → list A) batch i el :
  batch !! i = Some el → column field batch !! i = Some (field (fields el)).
Proof. intros Hel. unfold column. by rewrite list_lookup_fmap, Hel. Qed.

Lemma column_greatest {A : Type} (field : PPORLElement → list A) batch :
  batch ≠ [] →
  greatest (max_list (length <$> column field batch)) (length <$> column field batch).
Proof. intros Hne. apply greatest_max_list. by destruct batch. Qed.

(** The shapes of the five fields shared by every returned dictionary. *)
Lemma base_shapes batch pad (out : gmap string Tensor2) :
  batch ≠ [] →
  (∀ key, key ≠ "image_ids" → out !! key = base_dict batch pad !! key) →
  column_shape out "input_ids" input_ids batch ∧
  column_shape out "actions" actions batch ∧
  column_shape out "logprobs" logprobs batch ∧
  column_shape out "values" values batch ∧
  column_shape out "rewards" rewards batch.
Proof.
  intros Hne Hout.
  split_and!; eexists; (split; [by apply column_greatest|]);
    eexists; (split; [rewrite Hout by done; lookup_key|]);
    first [apply has_shape_long_column | apply has_shape_float_column].
Qed.

(** Row [i] of each of the five shared fields. *)
Lemma base_rows batch pad (out : gmap string Tensor2) i el :
  (∀ key, key ≠ "image_ids" → out !! key = base_dict batch pad !! key) →
  batch !! i = Some el →
  (∃ row, long_row out "input_ids" i = Some row ∧
          padded_row row (input_ids (fields el)) pad) ∧
  (∃ row, long_row out "actions" i = Some row ∧
          padded_row row (actions (fields el)) pad) ∧
  (∃ row, float_row out "logprobs" i = Some row ∧
          padded_row row (logprobs (fields el)) PrimFloat.zero) ∧
  (∃ row, float_row out "values" i = Some row ∧
          padded_row row (values (fields el)) PrimFloat.zero) ∧
  (∃ row, float_row out "rewards" i = Some row ∧
          padded_row row (rewards (fields el)) PrimFloat.zero).
Proof.
  intros Hout Hel.
  split_and!; eexists;
    (split; [unfold long_row, float_row; rewrite Hout by done; lookup_key;
             apply lookup_stack, lookup_column, Hel
            |apply pad_to_padded]).
Qed.

Lemma collate_Ok_base batch pad out :
  ppo_rl_collate_fn batch pad = Ok out →
  ∀ key, key ≠ "image_ids" → out !! key = base_dict batch pad !! key.
Proof.
  intros Hok key Hkey.
  destruct (collate_Ok_inv _ _ _ Hok) as [_ [[_ ->]|[_ (imgs & _ & ->)]]];
    [done|by rewrite lookup_insert_ne].
Qed.

Lemma collate_Ok_image_ids batch pad out t :
  ppo_rl_collate_fn batch pad = Ok out →
  out !! "image_ids" = Some t →
  ∃ imgs, mapM get_image_ids batch = Some imgs ∧ t = LongBatch (stack imgs 0%Z).
Proof.
  intros Hok Ht.
  destruct (collate_Ok_inv _ _ _ Hok) as [_ [[_ ->]|[_ (imgs & Himgs & ->)]]].
  - by rewrite base_dict_image_ids in Ht.
  - rewrite lookup_insert_eq in Ht. injection Ht as <-. eauto.
Qed.

(** The key is there exactly when some record exposes the field. *)
Lemma collate_image_ids_iff batch pad out :
  ppo_rl_collate_fn batch pad = Ok out →
  is_Some (out !! "image_ids") ↔ Exists exposes_image_ids batch.
Proof.
  intros Hok.
  destruct (collate_Ok_inv _ _ _ Hok) as [_ [[Hnone ->]|[Hsome (imgs & _ & ->)]]].
  - rewrite base_dict_image_ids. split; [by intros [??]|].
    intros Hsome. by apply Forall_Exists_neg in Hnone.
  - rewrite lookup_insert_eq. split; eauto.
Qed.

(** ** The claims about the collate function *)

Import Samples.

(** C4.  For a non-empty batch, every field of the returned dictionary has
    one row per record and as many columns as the longest sequence of that
    field among the records, each field on its own; this covers
    [image_ids] when the key is there.  A dictionary is returned whenever
    the records agree on exposing [image_ids].  The fields are not padded
    to a shared length: for the records [e1] and [e2] the [input_ids] batch
    is 2 x 2 and the [actions] batch is 2 x 5. *)
Theorem collate_shapes (batch : list element) (pad : Z) :
  batch ≠ [] →
  (uniform batch → ∃ out, ppo_rl_collate_fn batch pad = Ok out) ∧
  (∀ out, ppo_rl_collate_fn batch pad = Ok out →
     column_shape out "input_ids" input_ids batch ∧
     column_shape out "actions" actions batch ∧
     column_shape out "logprobs" logprobs batch ∧
     column_shape out "values" values batch ∧
     column_shape out "rewards" rewards batch ∧
     (∀ t, out !! "image_ids" = Some t →
        ∃ imgs m, mapM get_image_ids batch = Some imgs ∧
                  greatest m (length <$> imgs) ∧
                  has_shape t (length batch) m)) ∧
  (∃ out, ppo_rl_collate_fn [e1; e2] pad = Ok out ∧
          field_shape out "input_ids" 2 2 ∧
          field_shape out "actions" 2 5).
Proof.
  intros Hne. split_and!.
  - by apply collate_uniform.
  - intros out Hok.
    pose proof (base_shapes batch pad out Hne (collate_Ok_base _ _ _ Hok))
      as (? & ? & ? & ? & ?).
    split_and!; try done.
    intros t Ht.
    destruct (collate_Ok_image_ids _ _ _ _ Hok Ht) as (imgs & Himgs & ->).
    exists imgs, (max_list (length <$> imgs)).
    pose proof (length_mapM _ _ _ Himgs) as Hlen.
    split_and!; [done| |].
    + apply greatest_max_list. destruct batch, imgs; done.
    + rewrite Hlen. apply has_shape_long.
  - eexists. split; [reflexivity|].
    split; eexists; (split; [lookup_key|]); split; simpl; by repeat constructor.
Qed.

Lemma collate_shapes_witness :
  ∃ out, ppo_rl_collate_fn [v1; v2] 0 = Ok out ∧
         column_shape out "actions" actions [v1; v2].
Proof.
  destruct (collate_shapes [v1; v2] 0 ltac:(discriminate)) as (Hret & Hshape & _).
  destruct Hret as [out Hout].
  - left. repeat constructor; by eexists.
  - exists out. split; [exact Hout|]. apply (Hshape out Hout).
Defined.

(** C5.  For a non-empty batch, row [i] of every field of the returned
    dictionary starts with the sequence of record [i] for that field,
    unchanged, and holds the fill value of the field at every later
    position: [pad_token_id] for [input_ids] and [actions], the float 0.0
    for [logprobs], [values] and [rewards], the integer 0 for [image_ids]
    when the key is there.  A dictionary is returned whenever the records
    agree on exposing [image_ids]. *)
Theorem collate_rows (batch : list element) (pad : Z) :
  batch ≠ [] →
  (uniform batch → ∃ out, ppo_rl_collate_fn batch pad = Ok out) ∧
  (∀ out, ppo_rl_collate_fn batch pad = Ok out →
    ∀ i el, batch !! i = Some el →
     (∃ row, long_row out "input_ids" i = Some row ∧
             padded_row row (input_ids (fields el)) pad) ∧
     (∃ row, long_row out "actions" i = Some row ∧
             padded_row row (actions (fields el)) pad) ∧
     (∃ row, float_row out "logprobs" i = Some row ∧
             padded_row row (logprobs (fields el)) PrimFloat.zero) ∧
     (∃ row, float_row out "values" i = Some row ∧
             padded_row row (values (fields el)) PrimFloat.zero) ∧
     (∃ row, float_row out "rewards" i = Some row ∧
             padded_row row (rewards (fields el)) PrimFloat.zero) ∧
     (is_Some (out !! "image_ids") →
        ∃ img row, get_image_ids el = Some img ∧
                   long_row out "image_ids" i = Some row ∧
                   padded_row row img 0%Z)).
Proof.
  intros Hne. split; [by apply collate_uniform|].
  intros out Hok i el Hel.
  pose proof (base_rows batch pad out i el (collate_Ok_base _ _ _ Hok) Hel)
    as (? & ? & ? & ? & ?).
  split_and!; try done.
  intros [t Ht].
  destruct (collate_Ok_image_ids _ _ _ _ Hok Ht) as (imgs & Himgs & ->).
  apply mapM_Some in Himgs.
  destruct (Forall2_lookup_l _ _ _ _ _ Himgs Hel) as (img & Himg & Hget).
  exists img. eexists. split_and!; [done| |apply pad_to_padded].
  unfold long_row. rewrite Ht. by apply lookup_stack.
Qed.

Lemma collate_rows_witness :
  ∃ out, ppo_rl_collate_fn [e1; e2] 9 = Ok out ∧
         ∃ row, long_row out "actions" 0 = Some row ∧
                padded_row row [1; 2; 3]%Z 9%Z.
Proof.
  destruct (collate_rows [e1; e2] 9 ltac:(discriminate)) as (Hret & Hrows).
  destruct Hret as [out Hout].
  - right. repeat constructor; by intros [??].
  - exists out. split; [exact Hout|].
    apply (Hrows out Hout 0%nat e1 eq_refl).
Defined.

(** C6.  On the dictionaries it returns, the collate function puts the key
    [image_ids] exactly when some record exposes the field.  But a batch
    that mixes records with and without the field returns no dictionary:
    the placeholder appended for a record without the field is [None], and
    the padding of the [image_ids] column raises on it.  The records [e1]
    (text) and [v1] (vision) form such a batch. *)
Theorem collate_mixed_batch_raises :
  (∀ batch pad out,
     ppo_rl_collate_fn batch pad = Ok out →
     is_Some (out !! "image_ids") ↔ Exists exposes_image_ids batch) ∧
  (∀ batch pad,
     Exists exposes_image_ids batch →
     Exists (fun el => ¬ exposes_image_ids el) batch →
     ppo_rl_collate_fn batch pad = Raise TypeError) ∧
  (Exists exposes_image_ids [e1; v1] ∧
   ∀ pad, ppo_rl_collate_fn [e1; v1] pad = Raise TypeError).
Proof.
  split_and!.
  - apply collate_image_ids_iff.
  - apply collate_mixed.
  - apply Exists_cons_tl, Exists_cons_hd. by eexists.
  - reflexivity.
Qed.

Lemma collate_mixed_batch_raises_witness :
  ppo_rl_collate_fn [v2; e2; v1] 9 = Raise TypeError.
Proof.
  apply (proj1 (proj2 collate_mixed_batch_raises)).
  - apply Exists_cons_hd. by eexists.
  - apply Exists_cons_tl, Exists_cons_hd. by intros [??].
Defined.

(** C7.  A non-empty batch whose records agree on exposing [image_ids] is
    collated without any error even when some record has [actions],
    [logprobs], [values] and [rewards] of different lengths: each field is
    padded to its own greatest length, so for the single record [e2] the
    four batches are 1 x 5, 1 x 1, 1 x 0 and 1 x 2.  With a record that
    exposes [image_ids] next to [e2], which does not, the collate function
    raises instead of returning a batch. *)
Theorem collate_mismatched_lengths :
  (∀ batch pad,
     batch ≠ [] → uniform batch →
     Exists (fun el => ¬ aligned (fields el)) batch →
     ∃ out, ppo_rl_collate_fn batch pad = Ok out ∧
            column_shape out "actions" actions batch ∧
            column_shape out "logprobs" logprobs batch ∧
            column_shape out "values" values batch ∧
            column_shape out "rewards" rewards batch) ∧
  (∀ pad, ∃ out, ppo_rl_collate_fn [e2] pad = Ok out ∧
                 field_shape out "actions" 1 5 ∧
                 field_shape out "logprobs" 1 1 ∧
                 field_shape out "values" 1 0 ∧
                 field_shape out "rewards" 1 2) ∧
  (¬ aligned (fields e2) ∧
   ∀ pad, ppo_rl_collate_fn [e2; v1] pad = Raise TypeError).
Proof.
  split_and!.
  - intros batch pad Hne Huni _.
    destruct (collate_uniform batch pad Hne Huni) as [out Hok].
    pose proof (base_shapes batch pad out Hne (collate_Ok_base _ _ _ Hok))
      as (? & ? & ? & ? & ?).
    by exists out.
  - intros pad. eexists. split; [reflexivity|].
    split_and!; eexists; (split; [lookup_key|]); split; simpl;
      by repeat constructor.
  - intros (Hlen & _). simpl in Hlen. lia.
  - reflexivity.
Qed.

Lemma collate_mismatched_lengths_witness :
  ∃ out, ppo_rl_collate_fn [e1; e2] 9 = Ok out ∧
         column_shape out "actions" actions [e1; e2] ∧
         column_shape out "logprobs" logprobs [e1; e2] ∧
         column_shape out "values" values [e1; e2] ∧
         column_shape out "rewards" rewards [e1; e2].
Proof.
  apply (proj1 collate_mismatched_lengths [e1; e2] 9%Z).
  - discriminate.
  - right. repeat constructor; by intros [??].
  - apply Exists_cons_tl, Exists_cons_hd.
    intros (Hlen & _). simpl in Hlen. lia.
Defined.

(** C9.  On the empty batch the collate function returns no dictionary: the
    first [pad_sequence] call receives an empty list of sequences and
    raises.  Hence every batch for which a dictionary is returned is
    non-empty. *)
Theorem collate_empty_raises (pad : Z) :
  c_input_ids (foldl (collect (existsb hasattr_image_ids [])) empty_containers [])
  = [] ∧
  pad_sequence (@nil (option (list Z))) pad = Raise RuntimeError ∧
  ppo_rl_collate_fn [] pad = Raise RuntimeError ∧
  (∀ batch out, ppo_rl_collate_fn batch pad = Ok out → batch ≠ []).
Proof.
  split_and!; try reflexivity.
  intros batch out Hok. by destruct (collate_Ok_inv _ _ _ Hok).
Qed.

Lemma collate_empty_raises_witness :
  [e1] ≠ [] ∧ ppo_rl_collate_fn [] 7 = Raise RuntimeError.
Proof.
  destruct (collate_empty_raises 7) as (_ & _ & Hnil & Hne).
  split; [|exact Hnil].
  eapply (Hne [e1]). reflexivity.
Defined.

End CollateFacts.

(** * The collate function and the objects it is given *)

Module HeapFacts.

Implicit Types (σ : gmap Heap.loc Heap.object).

(** ** Extending the store keeps what was read from it *)

Lemma long_at_weaken σ σ' l data :
  σ ⊆ σ' → Heap.long_at σ l data → Heap.long_at σ' l data.
Proof. intros Hsub Hl. by eapply lookup_weaken. Qed.

Lemma float_at_weaken σ σ' l data :
  σ ⊆ σ' → Heap.float_at σ l data → Heap.float_at σ' l data.
Proof. intros Hsub Hl. by eapply lookup_weaken. Qed.

Lemma long_entry_weaken σ σ' e v :
  σ ⊆ σ' → Heap.long_entry σ e v → Heap.long_entry σ' e v.
Proof.
  intros Hsub. destruct 1; constructor. by eapply long_at_weaken.
Qed.

Lemma float_entry_weaken σ σ' e v :
  σ ⊆ σ' → Heap.float_entry σ e v → Heap.float_entry σ' e v.
Proof.
  intros Hsub. destruct 1; constructor. by eapply float_at_weaken.
Qed.

Lemma long_attr_weaken σ σ' attrs name data :
  σ ⊆ σ' → Heap.long_attr σ attrs name data → Heap.long_attr σ' attrs name data.
Proof. intros Hsub (l & ? & ?). exists l. eauto using long_at_weaken. Qed.

Lemma float_attr_weaken σ σ' attrs name data :
  σ ⊆ σ' → Heap.float_attr σ attrs name data → Heap.float_attr σ' attrs name data.
Proof. intros Hsub (l & ? & ?). exists l. eauto using float_at_weaken. Qed.

Lemma repr_weaken σ σ' o el : σ ⊆ σ' → Heap.repr σ o el → Heap.repr σ' o el.
Proof.
  intros Hsub (attrs & Ho & H1 & H2 & H3 & H4 & H5 & H6).
  exists attrs. split_and!;
    eauto using lookup_weaken, long_attr_weaken, float_attr_weaken.
  destruct (get_image_ids el); eauto using long_attr_weaken.
Qed.

Lemma containers_repr_weaken σ σ' c v :
  σ ⊆ σ' → containers_repr σ c v → containers_repr σ' c v.
Proof.
  intros Hsub (H1 & H2 & H3 & H4 & H5 & H6).
  split_and!; (eapply Forall2_impl; [eassumption|]);
    eauto using long_entry_weaken, float_entry_weaken.
Qed.

Lemma outcome_weaken σ σ' r v :
  σ ⊆ σ' → Heap.outcome σ r v → Heap.outcome σ' r v.
Proof.
  intros Hsub. destruct r, v; simpl; try done.
  intros Hd. eapply map_Forall2_impl; [exact Hd|].
  intros key l t Hl. simpl in *. exact (lookup_weaken _ _ _ _ Hl Hsub).
Qed.

(** ** What [pad_sequence] reads *)

Lemma read_long_entries σ es vs :
  Forall2 (Heap.long_entry σ) es vs → Heap.read_long σ <$> es = vs.
Proof.
  induction 1 as [|e v es vs He _ IH]; [done|].
  csimpl. rewrite IH. f_equal.
  destruct He as [l data Hl|]; [|done]. simpl. by rewrite Hl.
Qed.

Lemma read_float_entries σ es vs :
  Forall2 (Heap.float_entry σ) es vs → Heap.read_float σ <$> es = vs.
Proof.
  induction 1 as [|e v es vs He _ IH]; [done|].
  csimpl. rewrite IH. f_equal.
  destruct He as [l data Hl|]; [|done]. simpl. by rewrite Hl.
Qed.

(** ** Rules for running computations *)

Section Rules.
Context {A : Type}.
Implicit Types (Q : result A → gmap Heap.loc Heap.object → Prop).

Lemma wp_run (m : Heap.M A) σ r Q : m σ = (r, σ) → Q r σ → Heap.wp m σ Q.
Proof. intros Hrun HQ. by exists r, σ. Qed.

Lemma wp_ret (a : A) σ Q : Q (Ok a) σ → Heap.wp (mret a) σ Q.
Proof. by apply wp_run. Qed.

Lemma wp_bind {B : Type} (m : Heap.M B) (k : B → Heap.M A) σ Q :
  Heap.wp m σ (fun r σ' =>
    match r with
    | Ok b => Heap.wp (k b) σ' Q
    | Raise e => Q (Raise e) σ'
    end) →
  Heap.wp (m ≫= k) σ Q.
Proof.
  intros (r & σ1 & Hrun & Hsub & Hk).
  unfold Heap.wp, mbind, Heap.M_bind. rewrite Hrun. destruct r as [b|e].
  - destruct Hk as (r' & σ2 & Hrun' & Hsub' & HQ).
    exists r', σ2. split_and!; [done|by etrans|done].
  - by exists (Raise e), σ1.
Qed.

End Rules.

Lemma wp_new obj σ (Q : result Heap.loc → gmap Heap.loc Heap.object → Prop) :
  (∀ l σ', σ ⊆ σ' → σ' !! l = Some obj → Q (Ok l) σ') →
  Heap.wp (Heap.new obj) σ Q.
Proof.
  intros HQ. eexists _, _. split; [reflexivity|].
  assert (σ !! fresh (dom σ) = None) by apply not_elem_of_dom, is_fresh.
  assert (σ ⊆ <[fresh (dom σ) := obj]> σ) by by apply insert_subseteq.
  split; [done|]. apply HQ; [done|]. apply lookup_insert_eq.
Qed.

Lemma wp_pad_sequence_long es vs pv σ
    (Q : result Heap.loc → gmap Heap.loc Heap.object → Prop) :
  Forall2 (Heap.long_entry σ) es vs →
  match pad_sequence vs pv with
  | Ok rows =>
      ∀ l σ', σ ⊆ σ' → σ' !! l = Some (Heap.Batch (LongBatch rows)) → Q (Ok l) σ'
  | Raise e => Q (Raise e) σ
  end →
  Heap.wp (Heap.pad_sequence_long es pv) σ Q.
Proof.
  intros Hes HQ.
  assert (Hrun : Heap.pad_sequence_long es pv σ
                 = match pad_sequence vs pv with
                   | Ok rows => Heap.new (Heap.Batch (LongBatch rows)) σ
                   | Raise e => (Raise e, σ)
                   end).
  { unfold Heap.pad_sequence_long. by rewrite (read_long_entries σ es vs). }
  unfold Heap.wp. rewrite Hrun. destruct (pad_sequence vs pv) as [rows|e].
  - by apply wp_new.
  - by exists (Raise e), σ.
Qed.

Lemma wp_pad_sequence_float es vs pv σ
    (Q : result Heap.loc → gmap Heap.loc Heap.object → Prop) :
  Forall2 (Heap.float_entry σ) es vs →
  match pad_sequence vs pv with
  | Ok rows =>
      ∀ l σ', σ ⊆ σ' → σ' !! l = Some (Heap.Batch (FloatBatch rows)) → Q (Ok l) σ'
  | Raise e => Q (Raise e) σ
  end →
  Heap.wp (Heap.pad_sequence_float es pv) σ Q.
Proof.
  intros Hes HQ.
  assert (Hrun : Heap.pad_sequence_float es pv σ
                 = match pad_sequence vs pv with
                   | Ok rows => Heap.new (Heap.Batch (FloatBatch rows)) σ
                   | Raise e => (Raise e, σ)
                   end).
  { unfold Heap.pad_sequence_float. by rewrite (read_float_entries σ es vs). }
  unfold Heap.wp. rewrite Hrun. destruct (pad_sequence vs pv) as [rows|e].
  - by apply wp_new.
  - by exists (Raise e), σ.
Qed.

(** ** The loops over the batch *)

Lemma repr_hasattr σ o el :
  Heap.repr σ o el →
  Heap.hasattr o "image_ids" σ = (Ok (hasattr_image_ids el), σ).
Proof.
  intros (attrs & Ho & _ & _ & _ & _ & _ & Himg).
  unfold Heap.hasattr. rewrite Ho. do 2 f_equal.
  destruct el as [e|v]; simpl in Himg.
  - by rewrite Himg.
  - destruct Himg as (l & -> & _). reflexivity.
Qed.

Lemma run_any_hasattr σ refs batch :
  Forall2 (Heap.repr σ) refs batch →
  Heap.any_hasattr refs "image_ids" σ
  = (Ok (existsb hasattr_image_ids batch), σ).
Proof.
  induction 1 as [|o el refs batch Hrepr _ IH]; [reflexivity|].
  simpl. unfold mbind, Heap.M_bind. rewrite (repr_hasattr σ o el Hrepr).
  by destruct (hasattr_image_ids el).
Qed.

Lemma run_getattr σ o attrs name l :
  σ !! o = Some (Heap.Instance attrs) → attrs !! name = Some l →
  Heap.getattr o name σ = (Ok l, σ).
Proof. intros Ho Hl. unfold Heap.getattr. by rewrite Ho, Hl. Qed.

Lemma run_collect σ has c v o el :
  Heap.repr σ o el → containers_repr σ c v →
  ∃ c', Heap.collect has c o σ = (Ok c', σ) ∧
        containers_repr σ c' (collect has v el).
Proof.
  intros Hrepr (C1 & C2 & C3 & C4 & C5 & C6).
  pose proof (repr_hasattr σ o el Hrepr) as Hhas.
  destruct Hrepr as (attrs & Ho & (l1 & A1 & H1) & (l2 & A2 & H2)
                     & (l3 & A3 & H3) & (l4 & A4 & H4) & (l5 & A5 & H5) & Himg).
  unfold Heap.collect, mbind, Heap.M_bind.
  rewrite (run_getattr σ o attrs "input_ids" l1), (run_getattr σ o attrs "actions" l2),
    (run_getattr σ o attrs "logprobs" l3), (run_getattr σ o attrs "values" l4),
    (run_getattr σ o attrs "rewards" l5) by done.
  assert (Hone_l : ∀ l data, Heap.long_at σ l data →
            Forall2 (Heap.long_entry σ) [Some l] [Some data]).
  { intros. by repeat constructor. }
  assert (Hone_f : ∀ l data, Heap.float_at σ l data →
            Forall2 (Heap.float_entry σ) [Some l] [Some data]).
  { intros. by repeat constructor. }
  destruct has.
  - rewrite Hhas. destruct el as [e|vis]; simpl in *.
    + eexists. split; [reflexivity|].
      split_and!; simpl; apply Forall2_app; auto. by repeat constructor.
    + destruct Himg as (l6 & A6 & H6).
      rewrite (run_getattr σ o attrs "image_ids" l6) by done.
      eexists. split; [reflexivity|].
      split_and!; simpl; apply Forall2_app; auto.
  - eexists. split; [reflexivity|].
    split_and!; simpl; try (apply Forall2_app; auto). done.
Qed.

Lemma run_for_each σ has refs batch :
  Forall2 (Heap.repr σ) refs batch →
  ∀ c v, containers_repr σ c v →
  ∃ c', Heap.for_each (Heap.collect has) c refs σ = (Ok c', σ) ∧
        containers_repr σ c' (foldl (collect has) v batch).
Proof.
  induction 1 as [|o el refs batch Hrepr _ IH]; intros c v Hc.
  - exists c. by split.
  - destruct (run_collect σ has c v o el Hrepr Hc) as (c1 & Hrun1 & Hc1).
    destruct (IH c1 _ Hc1) as (c' & Hrun & Hc').
    exists c'. split; [|done].
    simpl. unfold mbind, Heap.M_bind. by rewrite Hrun1.
Qed.

Lemma empty_containers_repr σ :
  containers_repr σ Heap.empty_containers empty_containers.
Proof. by split_and!; constructor. Qed.

(** ** The run over the store against the function over values *)

(** Carry what is known of a store over to a store that extends it. *)
Ltac lift Hs :=
  repeat match goal with
  | H : containers_repr ?σ _ _ |- _ =>
      match type of Hs with
      | σ ⊆ _ => apply (containers_repr_weaken _ _ _ _ Hs) in H
      end
  | H : ?σ !! _ = Some _ |- _ =>
      match type of Hs with
      | σ ⊆ _ => apply (fun H0 => lookup_weaken _ _ _ _ H0 Hs) in H
      end
  end.

(** One [pad_sequence] call of the dictionary literal: either both runs
    raise, or the run over the store goes on in an extended store. *)
Ltac pad_step rule C l σ' Hs Hl :=
  apply wp_bind, (rule _ _ _ _ _ C);
  match goal with
  | |- context [pad_sequence ?vs ?pv] =>
      destruct (pad_sequence vs pv) as [?rows|?e]; [|reflexivity]
  end;
  intros l σ' Hs Hl; lift Hs; cbn [mbind result_bind].

(** Run from a store that holds the records of [batch] at [refs], the
    collate function only allocates, and its outcome is the one of the
    function over values. *)
Lemma collate_refines σ refs batch pad :
  Forall2 (Heap.repr σ) refs batch →
  Heap.wp (Heap.ppo_rl_collate_fn refs pad) σ
    (fun r σ' => Heap.outcome σ' r (ppo_rl_collate_fn batch pad)).
Proof.
  intros Hrepr.
  destruct (run_for_each σ (existsb hasattr_image_ids batch) refs batch Hrepr
              _ _ (empty_containers_repr σ)) as (c & Hrun & Hc).
  unfold Heap.ppo_rl_collate_fn, ppo_rl_collate_fn.
  remember (foldl (collect (existsb hasattr_image_ids batch)) empty_containers batch)
    as v eqn:Hv. clear Hv.
  apply wp_bind, (wp_run _ _ _ _ (run_any_hasattr σ refs batch Hrepr)).
  apply wp_bind, (wp_run _ _ _ _ Hrun). clear Hrun Hrepr.
  pad_step wp_pad_sequence_long (proj1 Hc) l1 σ1 S1 L1.
  pad_step wp_pad_sequence_long (proj1 (proj2 Hc)) l2 σ2 S2 L2.
  pad_step wp_pad_sequence_float (proj1 (proj2 (proj2 Hc))) l3 σ3 S3 L3.
  pad_step wp_pad_sequence_float (proj1 (proj2 (proj2 (proj2 Hc)))) l4 σ4 S4 L4.
  pad_step wp_pad_sequence_float
    (proj1 (proj2 (proj2 (proj2 (proj2 Hc))))) l5 σ5 S5 L5.
  destruct (existsb hasattr_image_ids batch).
  - pad_step wp_pad_sequence_long
      (proj2 (proj2 (proj2 (proj2 (proj2 Hc))))) l6 σ6 S6 L6.
    apply wp_ret. simpl.
    repeat (apply map_Forall2_insert_2; [assumption|]).
    apply map_Forall2_empty.
  - apply wp_ret. simpl.
    repeat (apply map_Forall2_insert_2; [assumption|]).
    apply map_Forall2_empty.
Qed.

Lemma outcome_same σ r1 r2 v :
  Heap.outcome σ r1 v → Heap.outcome σ r2 v → Heap.same_outcome σ r1 r2.
Proof.
  destruct r1 as [d1|e1], r2 as [d2|e2], v as [dv|ev]; simpl; try done.
  - intros H1 H2 key. specialize (H1 key). specialize (H2 key).
    destruct H1 as [l1 t H1|]; inv H2; constructor. eauto.
  - congruence.
Qed.

Lemma sample_store_repr :
  Forall2 (Heap.repr Heap.sample_store) [1%positive] [Heap.sample_record].
Proof.
  constructor; [|constructor].
  eexists. split; [reflexivity|].
  split_and!; try (eexists; split; reflexivity).
Qed.

(** C8.  Let a store hold the records of [batch] at the references [refs].
    A call of the collate function on [refs] returns or raises, and a second
    call on the same arguments, made in the store the first call left, does
    the same: both raise the same exception, or both return dictionaries
    with the same keys and tensors of the same contents, which are those of
    the function over values.  Neither call changes an object that was in
    the store before it (each ends in an extension of the store it started
    from), and the records at [refs] read the same afterwards. *)
Theorem collate_replay σ (refs : list Heap.loc) (batch : list element) (pad : Z) :
  Forall2 (Heap.repr σ) refs batch →
  ∃ r1 σ1 r2 σ2,
    Heap.ppo_rl_collate_fn refs pad σ = (r1, σ1) ∧
    Heap.ppo_rl_collate_fn refs pad σ1 = (r2, σ2) ∧
    Heap.same_outcome σ2 r1 r2 ∧
    Heap.outcome σ2 r1 (ppo_rl_collate_fn batch pad) ∧
    Heap.outcome σ2 r2 (ppo_rl_collate_fn batch pad) ∧
    σ ⊆ σ1 ∧ σ1 ⊆ σ2 ∧
    Forall2 (Heap.repr σ2) refs batch.
Proof.
  intros Hrepr.
  destruct (collate_refines σ refs batch pad Hrepr) as (r1 & σ1 & Hrun1 & S1 & O1).
  assert (Hrepr1 : Forall2 (Heap.repr σ1) refs batch).
  { eapply Forall2_impl; [exact Hrepr|]. intros o el. by apply repr_weaken. }
  destruct (collate_refines σ1 refs batch pad Hrepr1) as (r2 & σ2 & Hrun2 & S2 & O2).
  pose proof (outcome_weaken σ1 σ2 r1 _ S2 O1) as O1'.
  exists r1, σ1, r2, σ2. split_and!; try done.
  - by eapply outcome_same.
  - eapply Forall2_impl; [exact Hrepr1|]. intros o el. by apply repr_weaken.
Qed.

Lemma collate_replay_witness :
  ∃ r1 σ1 r2 σ2,
    Heap.ppo_rl_collate_fn [1%positive] 0 Heap.sample_store = (r1, σ1) ∧
    Heap.ppo_rl_collate_fn [1%positive] 0 σ1 = (r2, σ2) ∧
    Heap.same_outcome σ2 r1 r2 ∧
    Heap.outcome σ2 r1 (ppo_rl_collate_fn [Heap.sample_record] 0) ∧
    Heap.outcome σ2 r2 (ppo_rl_collate_fn [Heap.sample_record] 0) ∧
    Heap.sample_store ⊆ σ1 ∧ σ1 ⊆ σ2 ∧
    Forall2 (Heap.repr σ2) [1%positive] [Heap.sample_record].
Proof.
  apply (collate_replay Heap.sample_store [1%positive] [Heap.sample_record] 0).
  exact sample_store_repr.
Defined.

End HeapFacts.

(** * Further properties of the batch sampler *)

Module SamplerMore.
Import PPORLBatchSampler SamplerFacts.
Local Open Scope Z_scope.

(** In a list of groups of one length [b], the element at offset [r] of
    group [j] is the element at position [j * b + r] of the groups laid end
    to end. *)
Lemma lookup_concat_uniform {A : Type} (groups : list (list A)) (b : nat) :
  Forall (fun g => length g = b) groups →
  ∀ j r : nat, (r < b)%nat →
    concat groups !! (j * b + r)%nat = groups !! j ≫= (fun g => g !! r).
Proof.
  induction 1 as [|g groups Hg _ IH]; intros j r Hr.
  - by rewrite !lookup_nil.
  - destruct j as [|j]; simpl.
    + rewrite lookup_app_l by lia. reflexivity.
    + rewrite lookup_app_r by lia.
      replace (b + j * b + r - length g)%nat with (j * b + r)%nat by lia.
      by apply IH.
Qed.

(** The groups of a sampler with a batch size of at least one, in closed
    form. *)
Lemma iter_closed_form {D : Type} (ds : list D) (bs : Z) :
  1 ≤ bs →
  ∃ groups,
    (∀ fuel : nat, (Z.to_nat bs ≤ fuel)%nat →
       __iter__ fuel (mk ds bs) = Some groups) ∧
    Forall (fun g => len g = bs) groups ∧
    0 ≤ len groups * bs - len ds < bs ∧
    concat groups
    = range (len ds) ++ wrap_fill (len ds) (len groups * bs - len ds).
Proof.
  intros Hbs.
  destruct (iter_spec ds bs Hbs) as (full & part & _ & Hcat & Hfull & Hlt & Hiter).
  assert (Htotal : len full * bs + len part = len ds).
  { rewrite <- (len_concat_uniform full bs Hfull), <- len_app, Hcat.
    apply len_range, len_nonneg. }
  pose proof (len_nonneg part) as Hpart.
  destruct part as [|i part].
  - exists full. rewrite (@len_nil Z) in Htotal.
    split_and!; [|done|lia|lia|].
    + intros fuel Hfuel. rewrite (Hiter fuel Hfuel). by rewrite app_nil_r.
    + rewrite wrap_fill_nonpos by lia. by rewrite app_nil_r in *.
  - pose proof (len_cons_pos i part) as Hpos.
    set (part' := i :: part) in *.
    exists (full ++ [part' ++ wrap_fill (len ds) (bs - len part')]).
    assert (Hcount : len (full ++ [part' ++ wrap_fill (len ds) (bs - len part')])
                     = len full + 1).
    { by rewrite len_app. }
    split_and!.
    + done.
    + apply Forall_app. split; [done|]. constructor; [|constructor].
      rewrite len_app, len_wrap_fill; lia.
    + rewrite Hcount. lia.
    + rewrite Hcount. lia.
    + rewrite Hcount, concat_app.
      change (concat [part' ++ wrap_fill (len ds) (bs - len part')])
        with ((part' ++ wrap_fill (len ds) (bs - len part')) ++ []).
      rewrite app_nil_r, app_assoc, Hcat.
      do 2 f_equal. lia.
Qed.

(** X1.  The groups laid end to end are [0 .. n-1] followed by the indices
    [0, 1, ...] taken modulo [n]; fewer than [batch_size] indices are
    repeated. *)
Theorem iter_flattened {D : Type} (ds : list D) (bs : Z) :
  1 ≤ bs →
  ∃ groups (repeated : Z),
    (∀ fuel : nat, (Z.to_nat bs ≤ fuel)%nat →
       __iter__ fuel (mk ds bs) = Some groups) ∧
    repeated = len groups * bs - len ds ∧
    0 ≤ repeated < bs ∧
    concat groups
    = range (len ds) ++ ((fun j => j `mod` len ds) <$> range repeated).
Proof.
  intros Hbs.
  destruct (iter_closed_form ds bs Hbs) as (groups & Hiter & _ & Hr & Hcat).
  by exists groups, (len groups * bs - len ds).
Qed.

Lemma iter_flattened_witness :
  ∃ groups (repeated : Z),
    (∀ fuel : nat, (Z.to_nat 5 ≤ fuel)%nat →
       __iter__ fuel (mk (replicate 2 ()) 5) = Some groups) ∧
    repeated = len groups * 5 - len (replicate 2 ()) ∧
    0 ≤ repeated < 5 ∧
    concat groups
    = range (len (replicate 2 ()))
      ++ ((fun j => j `mod` len (replicate 2 ())) <$> range repeated).
Proof. apply (iter_flattened (replicate 2 ()) 5). lia. Defined.

(** X2.  Index [i] of the data source is found in group [i // batch_size]
    at offset [i % batch_size]. *)
Theorem iter_position {D : Type} (ds : list D) (bs : Z) (fuel : nat)
    (groups : list (list Z)) (i : Z) :
  1 ≤ bs → (Z.to_nat bs ≤ fuel)%nat →
  __iter__ fuel (mk ds bs) = Some groups →
  0 ≤ i < len ds →
  ∃ g, groups !! Z.to_nat (i `div` bs) = Some g ∧
       g !! Z.to_nat (i `mod` bs) = Some i.
Proof.
  intros Hbs Hfuel Hrun Hi.
  destruct (iter_closed_form ds bs Hbs) as (groups' & Hiter & Hlen & _ & Hcat).
  rewrite (Hiter fuel Hfuel) in Hrun. injection Hrun as ->.
  assert (Hlen' : Forall (fun g : list Z => length g = Z.to_nat bs) groups).
  { eapply Forall_impl; [exact Hlen|]. intros g Hg. simpl in Hg.
    unfold len in Hg. lia. }
  pose proof (Z.mod_pos_bound i bs ltac:(lia)) as Hmod.
  pose proof (Z.div_pos i bs ltac:(lia) ltac:(lia)) as Hdiv.
  pose proof (Z.div_mod i bs ltac:(lia)) as Heq.
  pose proof (lookup_concat_uniform groups (Z.to_nat bs) Hlen'
                (Z.to_nat (i `div` bs)) (Z.to_nat (i `mod` bs)) ltac:(lia)) as Hlook.
  replace (Z.to_nat (i `div` bs) * Z.to_nat bs + Z.to_nat (i `mod` bs))%nat
    with (Z.to_nat i) in Hlook by nia.
  rewrite Hcat, lookup_app_l in Hlook
    by (unfold range; rewrite length_seqZ; lia).
  unfold range in Hlook. rewrite lookup_seqZ_lt in Hlook by lia.
  replace (0 + Z.of_nat (Z.to_nat i)) with i in Hlook by lia.
  destruct (groups !! Z.to_nat (i `div` bs)) as [g|]; [|done].
  exists g. split; [done|]. by symmetry.
Qed.

Lemma iter_position_witness :
  ∃ g, [[0; 1; 2]; [3; 4; 5]; [6; 0; 1]] !! Z.to_nat (4 `div` 3) = Some g ∧
       g !! Z.to_nat (4 `mod` 3) = Some 4.
Proof.
  apply (iter_position (replicate 7 ()) 3 3 _ 4);
    [lia | lia | reflexivity | unfold len; simpl; lia].
Defined.

(** X3.  When the batch size divides the number of items, nothing is
    refilled: whatever the fuel, the groups laid end to end are exactly
    [0 .. n-1], every index once, in [n // batch_size] groups. *)
Theorem iter_exact_division {D : Type} (ds : list D) (bs : Z) (fuel : nat) :
  1 ≤ bs → len ds `mod` bs = 0 →
  ∃ groups,
    __iter__ fuel (mk ds bs) = Some groups ∧
    Forall (fun g => len g = bs) groups ∧
    concat groups = range (len ds) ∧
    len groups = len ds `div` bs.
Proof.
  intros Hbs Hdiv.
  destruct (for_loop (len ds) bs) as [full part] eqn:Hrun.
  destruct (for_loop_inv bs (length ds) full part Hbs Hrun) as (Hcat & Hfull & Hlt).
  assert (Htotal : len full * bs + len part = len ds).
  { rewrite <- (len_concat_uniform full bs Hfull), <- len_app, Hcat.
    apply len_range, len_nonneg. }
  pose proof (len_nonneg part) as Hpart.
  assert (Hzero : len part = 0).
  { rewrite <- Htotal, Z.add_comm, Z.mod_add in Hdiv by lia.
    rewrite Z.mod_small in Hdiv; lia. }
  destruct part as [|i part]; [|pose proof (len_cons_pos i part); lia].
  exists full. split_and!.
  - unfold __iter__. simpl. by rewrite Hrun.
  - done.
  - by rewrite app_nil_r in Hcat.
  - rewrite <- Htotal, Hzero, Z.add_0_r, Z.div_mul; lia.
Qed.

Lemma iter_exact_division_witness :
  ∃ groups,
    __iter__ 0 (mk (replicate 6 ()) 3) = Some groups ∧
    Forall (fun g => len g = 3) groups ∧
    concat groups = range (len (replicate 6 ())) ∧
    len groups = len (replicate 6 ()) `div` 3.
Proof.
  apply (iter_exact_division (replicate 6 ()) 3 0); [lia | reflexivity].
Defined.

(** The iteration for a batch size of zero or below. *)
Lemma iter_nonpos {D : Type} (ds : list D) (bs : Z) (fuel : nat) :
  bs ≤ 0 → 1 ≤ len ds →
  __iter__ fuel (mk ds bs) = Some [range (len ds)].
Proof.
  intros Hbs Hn.
  pose proof (for_loop_nonpos bs (length ds) Hbs) as Hrun.
  pose proof (len_range (len ds) ltac:(lia)) as Hlen.
  unfold __iter__. simpl. fold (len ds) in Hrun. rewrite Hrun.
  destruct (range (len ds)) as [|i l] eqn:Hrange.
  - rewrite len_nil in Hlen. lia.
  - rewrite while_loop_skip by lia. reflexivity.
Qed.

(** X4.  With a batch size of zero or below and at least one item, the
    sampler yields one single group holding every index in order, whatever
    the fuel. *)
Theorem iter_nonpositive_batch_size {D : Type} (ds : list D) (bs : Z) (fuel : nat) :
  bs ≤ 0 → 1 ≤ len ds →
  ∃ group,
    __iter__ fuel (mk ds bs) = Some [group] ∧
    group = range (len ds) ∧ len group = len ds.
Proof.
  intros Hbs Hn. exists (range (len ds)). split_and!.
  - by apply iter_nonpos.
  - done.
  - apply len_range. lia.
Qed.

Lemma iter_nonpositive_batch_size_witness :
  ∃ group,
    __iter__ 0 (mk (replicate 3 ()) (-2)) = Some [group] ∧
    group = range (len (replicate 3 ())) ∧ len group = len (replicate 3 ()).
Proof.
  apply (iter_nonpositive_batch_size (replicate 3 ()) (-2) 0);
    [lia | unfold len; simpl; lia].
Defined.

(** X5.  With a negative batch size [__len__] does not count the groups:
    for [n >= 1 - batch_size] it returns a number that is zero or negative,
    while the iteration yields one group. *)
Theorem len_negative_batch_size {D : Type} (ds : list D) (bs : Z) (fuel : nat) :
  bs < 0 → 1 - bs ≤ len ds →
  ∃ k groups,
    __len__ (mk ds bs) = Ok k ∧ k ≤ 0 ∧
    __iter__ fuel (mk ds bs) = Some groups ∧ len groups = 1.
Proof.
  intros Hbs Hn.
  exists ((len ds + bs - 1) `div` bs), [range (len ds)]. split_and!.
  - unfold __len__. simpl. case_decide; [lia|done].
  - pose proof (Z.div_mod (len ds + bs - 1) bs ltac:(lia)).
    pose proof (Z.mod_neg_bound (len ds + bs - 1) bs ltac:(lia)).
    nia.
  - apply iter_nonpos; lia.
  - reflexivity.
Qed.

Lemma len_negative_batch_size_witness :
  ∃ k groups,
    __len__ (mk (replicate 3 ()) (-2)) = Ok k ∧ k ≤ 0 ∧
    __iter__ 0 (mk (replicate 3 ()) (-2)) = Some groups ∧ len groups = 1.
Proof.
  apply (len_negative_batch_size (replicate 3 ()) (-2) 0);
    [lia | unfold len; simpl; lia].
Defined.

End SamplerMore.

(** * The sampler and the dataset *)

Module DatasetMore.
Import SamplerFacts SamplerMore.
Local Open Scope Z_scope.

(** Whatever the fuel, a finished iteration with a batch size of at least
    one has the closed form. *)
Lemma iter_Some_closed {D : Type} (ds : list D) (bs : Z) (fuel : nat) groups :
  1 ≤ bs →
  PPORLBatchSampler.__iter__ fuel (PPORLBatchSampler.mk ds bs) = Some groups →
  Forall (fun g => len g = bs) groups ∧
  0 ≤ len groups * bs - len ds < bs ∧
  concat groups = range (len ds) ++ wrap_fill (len ds) (len groups * bs - len ds).
Proof.
  intros Hbs Hrun.
  destruct (iter_closed_form ds bs Hbs) as (groups' & Hiter & Hlen & Hr & Hcat).
  pose proof (iter_mono _ fuel (fuel + Z.to_nat bs) groups ltac:(lia) Hrun) as Hrun'.
  rewrite (Hiter (fuel + Z.to_nat bs)%nat ltac:(lia)) in Hrun'.
  injection Hrun' as ->. done.
Qed.

Lemma iter_valid {D : Type} (ds : list D) (bs : Z) (fuel : nat)
    (groups : list (list Z)) :
  PPORLBatchSampler.__iter__ fuel (PPORLBatchSampler.mk ds bs) = Some groups →
  Forall (Forall (fun i => 0 ≤ i < len ds)) groups.
Proof.
  intros Hrun.
  destruct (decide (1 ≤ bs)) as [Hbs|Hbs].
  - destruct (iter_Some_closed ds bs fuel groups Hbs Hrun) as (Hlen & Hr & Hcat).
    assert (Hall : Forall (fun i => 0 ≤ i < len ds) (concat groups)).
    { rewrite Hcat. apply Forall_app. split.
      - unfold range. apply Forall_seqZ. lia.
      - destruct (decide (1 ≤ len ds)) as [Hn|Hn].
        + by apply wrap_fill_bounds.
        + pose proof (len_nonneg ds). pose proof (len_nonneg groups).
          assert (Hnone : len groups = 0).
          { destruct (decide (1 ≤ len groups)); [nia|lia]. }
          rewrite Hnone, wrap_fill_nonpos by lia. constructor. }
    clear -Hall. induction groups as [|g groups IH]; [constructor|].
    simpl in Hall. apply Forall_app in Hall as [??]. constructor; auto.
  - destruct ds as [|d ds].
    + injection Hrun as <-. constructor.
    + pose proof (len_cons_pos d ds) as Hn.
      rewrite iter_nonpos in Hrun by lia. injection Hrun as <-.
      constructor; [|constructor]. unfold range. apply Forall_seqZ. lia.
Qed.

(** X6.  Whatever the batch size (positive, zero or negative) and whatever
    the fuel, every index that the sampler yields is a valid position of the
    data source: it lies in [[0, n)] and there is an item at it. *)
Theorem iter_indices_in_range {D : Type} (ds : list D) (bs : Z) (fuel : nat)
    (groups : list (list Z)) :
  PPORLBatchSampler.__iter__ fuel (PPORLBatchSampler.mk ds bs) = Some groups →
  ∀ g idx, g ∈ groups → idx ∈ g →
    0 ≤ idx < len ds ∧ is_Some (ds !! Z.to_nat idx).
Proof.
  intros Hrun g idx Hg Hidx.
  pose proof (iter_valid ds bs fuel groups Hrun) as Hvalid.
  rewrite Forall_forall in Hvalid. specialize (Hvalid g Hg).
  rewrite Forall_forall in Hvalid. specialize (Hvalid idx Hidx).
  split; [done|]. apply lookup_lt_is_Some_2. unfold len in Hvalid. lia.
Qed.

Lemma iter_indices_in_range_witness :
  0 ≤ 1 < len (replicate 2 ()) ∧ is_Some (replicate 2 () !! Z.to_nat 1).
Proof.
  apply (iter_indices_in_range (replicate 2 ()) 5 5 [[0; 1; 0; 1; 0]] eq_refl
           [0; 1; 0; 1; 0] 1).
  - apply list_elem_of_here.
  - apply list_elem_of_further, list_elem_of_here.
Defined.

Import PPORLVisionDataset.

Lemma getitem_in_range (self : t) (idx : Z) :
  0 ≤ idx < len (ppo_rl_elements self) →
  ∃ el, __getitem__ self idx = Some el ∧
        ppo_rl_elements self !! Z.to_nat idx = Some el.
Proof.
  intros Hidx. unfold __getitem__. simpl. case_decide; [|lia].
  destruct (lookup_lt_is_Some_2 (ppo_rl_elements self) (Z.to_nat idx)) as [el Hel].
  { unfold len in Hidx. lia. }
  eauto.
Qed.

(** X7.  Indexing the dataset succeeds exactly for [-n <= idx < n]; a
    non-negative index reads the record at that position, and the negative
    index [idx - n] reads the same record as [idx]. *)
Theorem getitem_bounds (self : t) (idx : Z) :
  (is_Some (__getitem__ self idx) ↔ - __len__ self ≤ idx < __len__ self) ∧
  (0 ≤ idx < __len__ self →
     __getitem__ self idx = ppo_rl_elements self !! Z.to_nat idx ∧
     __getitem__ self (idx - __len__ self) = __getitem__ self idx).
Proof.
  unfold __len__, __getitem__. simpl.
  set (n := len (ppo_rl_elements self)).
  assert (Hn : n = Z.of_nat (length (ppo_rl_elements self))) by reflexivity.
  split.
  - repeat case_decide.
    + split; [lia|]. intros _. apply lookup_lt_is_Some_2. lia.
    + split; [lia|]. intros _. apply lookup_lt_is_Some_2. lia.
    + split; [by intros [??]|lia].
  - intros Hidx. repeat case_decide; try lia.
    split; [done|]. f_equal. lia.
Qed.

Lemma getitem_bounds_witness :
  __getitem__ (mk [Samples.e1; Samples.e2]) 1
  = ppo_rl_elements (mk [Samples.e1; Samples.e2]) !! Z.to_nat 1 ∧
  __getitem__ (mk [Samples.e1; Samples.e2])
    (1 - __len__ (mk [Samples.e1; Samples.e2]))
  = __getitem__ (mk [Samples.e1; Samples.e2]) 1.
Proof.
  apply (proj2 (getitem_bounds (mk [Samples.e1; Samples.e2]) 1)).
  unfold __len__, len. simpl. lia.
Defined.

Lemma fetch_in_range (dataset : t) (g : list Z) :
  Forall (fun i => 0 ≤ i < len (ppo_rl_elements dataset)) g →
  ∃ records,
    fetch dataset g = Some records ∧
    Forall2 (fun idx el => ppo_rl_elements dataset !! Z.to_nat idx = Some el)
            g records.
Proof.
  induction 1 as [|idx g Hidx _ (records & Hfetch & Hrec)].
  - exists []. by split; [|constructor].
  - destruct (getitem_in_range dataset idx Hidx) as (el & Hget & Hel).
    exists (el :: records). split; [|by constructor].
    unfold fetch in *. apply mapM_Some. constructor; [done|].
    by apply mapM_Some.
Qed.

(** X8.  For every group that the sampler yields over the records of a
    dataset, whatever the batch size, indexing the dataset at each index of
    the group succeeds and reads the record at that position: fetching a
    group never raises [IndexError]. *)
Theorem sampler_groups_fetch (dataset : t) (bs : Z) (fuel : nat)
    (groups : list (list Z)) :
  PPORLBatchSampler.__iter__ fuel
    (PPORLBatchSampler.mk (ppo_rl_elements dataset) bs) = Some groups →
  Forall (fun g =>
    ∃ records,
      fetch dataset g = Some records ∧
      Forall2 (fun idx el => ppo_rl_elements dataset !! Z.to_nat idx = Some el)
              g records) groups.
Proof.
  intros Hrun.
  pose proof (iter_valid _ _ _ _ Hrun) as Hvalid.
  eapply Forall_impl; [exact Hvalid|]. intros g. apply fetch_in_range.
Qed.

Lemma sampler_groups_fetch_witness :
  Forall (fun g =>
    ∃ records,
      fetch (mk [Samples.e1; Samples.e2]) g = Some records ∧
      Forall2 (fun idx el => [Samples.e1; Samples.e2] !! Z.to_nat idx = Some el)
              g records) [[0; 1; 0]].
Proof.
  apply (sampler_groups_fetch (mk [Samples.e1; Samples.e2]) 3 3). reflexivity.
Defined.

End DatasetMore.

(** * Further properties of the collate function *)

Module CollateMore.
Import CollateFacts.

Lemma uniform_not_mixed batch :
  uniform batch →
  Exists exposes_image_ids batch →
  Exists (fun el => ¬ exposes_image_ids el) batch → False.
Proof.
  intros [Hall|Hnone] Hsome Hnot.
  - apply Exists_exists in Hnot as (el & Hel & Hn).
    apply Hn. by eapply Forall_forall in Hall.
  - by apply Forall_Exists_neg in Hnone.
Qed.

(** The three ways a call can end. *)
Lemma collate_cases batch pad :
  (batch = [] ∧ ppo_rl_collate_fn batch pad = Raise RuntimeError) ∨
  (batch ≠ [] ∧ uniform batch ∧ ∃ out, ppo_rl_collate_fn batch pad = Ok out) ∨
  (batch ≠ [] ∧ Exists exposes_image_ids batch ∧
   Exists (fun el => ¬ exposes_image_ids el) batch ∧
   ppo_rl_collate_fn batch pad = Raise TypeError).
Proof.
  destruct (decide (batch = [])) as [->|Hne]; [by left|]. right.
  destruct (existsb hasattr_image_ids batch) eqn:Hany.
  - apply existsb_hasattr in Hany.
    destruct (mapM get_image_ids batch) as [imgs|] eqn:Himgs.
    + left. assert (Huni : uniform batch).
      { left. apply (mapM_is_Some_1 get_image_ids). by rewrite Himgs. }
      split_and!; [done|done|by apply collate_uniform].
    + right. assert (Hnot : Exists (fun el => ¬ exposes_image_ids el) batch).
      { apply mapM_None_1 in Himgs. eapply Exists_impl; [exact Himgs|].
        intros el Hel [img Himg]. simpl in Hel. congruence. }
      split_and!; [done|done|done|by apply collate_mixed].
  - left. assert (Huni : uniform batch).
    { right. by apply existsb_hasattr_false. }
    split_and!; [done|done|by apply collate_uniform].
Qed.

(** X9.  The collate function returns a dictionary exactly for the
    non-empty batches whose records all expose [image_ids] or all do not; it
    raises the error of an empty list of sequences exactly for the empty
    batch, and the error of a non-tensor entry exactly for the batches that
    mix the two kinds of records.  It never raises anything else. *)
Theorem collate_outcome (batch : list element) (pad : Z) :
  ((∃ out, ppo_rl_collate_fn batch pad = Ok out) ↔ batch ≠ [] ∧ uniform batch) ∧
  (ppo_rl_collate_fn batch pad = Raise RuntimeError ↔ batch = []) ∧
  (ppo_rl_collate_fn batch pad = Raise TypeError ↔
     Exists exposes_image_ids batch ∧
     Exists (fun el => ¬ exposes_image_ids el) batch) ∧
  (∀ e, ppo_rl_collate_fn batch pad = Raise e → e = RuntimeError ∨ e = TypeError).
Proof.
  destruct (collate_cases batch pad)
    as [[-> Hrun]|[(Hne & Huni & out & Hrun)|(Hne & Hsome & Hnot & Hrun)]];
    rewrite Hrun.
  - split_and!.
    + split; [by intros [??]|by intros [??]].
    + done.
    + split; [done|]. intros [Hsome _]. by apply Exists_nil in Hsome.
    + intros e [= <-]. by left.
  - split_and!.
    + split; eauto.
    + split; [done|by intros ->].
    + split; [done|]. intros [??]. by destruct (uniform_not_mixed batch).
    + by intros e.
  - split_and!.
    + split; [by intros [??]|].
      intros [_ Huni]. by destruct (uniform_not_mixed batch).
    + split; [done|by intros ->].
    + done.
    + intros e [= <-]. by right.
Qed.

Lemma collate_outcome_witness :
  ∃ out, ppo_rl_collate_fn [Samples.v1; Samples.v2] 9 = Ok out.
Proof.
  apply (proj1 (collate_outcome [Samples.v1; Samples.v2] 9)).
  split; [discriminate|]. left. repeat constructor; by eexists.
Defined.

(** X10.  A returned dictionary has the five keys [input_ids], [actions],
    [logprobs], [values], [rewards], the key [image_ids] besides them when
    some record exposes the field, and no other key. *)
Theorem collate_keys (batch : list element) (pad : Z) (out : gmap string Tensor2) :
  ppo_rl_collate_fn batch pad = Ok out →
  (Exists exposes_image_ids batch → dom out = {["image_ids"]} ∪ base_keys) ∧
  (¬ Exists exposes_image_ids batch → dom out = base_keys).
Proof.
  intros Hok.
  assert (Hbase : dom (base_dict batch pad) = base_keys).
  { unfold base_dict, base_keys. rewrite !dom_insert_L, dom_empty_L. set_solver. }
  destruct (collate_Ok_inv _ _ _ Hok) as [_ [[Hnone ->]|[Hsome (imgs & _ & ->)]]].
  - split; [|done]. intros Hsome. by apply Forall_Exists_neg in Hnone.
  - split; [|done]. intros _. by rewrite dom_insert_L, Hbase.
Qed.

Lemma collate_keys_witness :
  ∃ out, ppo_rl_collate_fn [Samples.v1; Samples.v2] 9 = Ok out ∧
         dom out = {["image_ids"]} ∪ base_keys.
Proof.
  eexists. split; [reflexivity|].
  apply (collate_keys [Samples.v1; Samples.v2] 9); [reflexivity|].
  apply Exists_cons_hd. by eexists.
Defined.

(** X11.  The pad token only reaches [input_ids] and [actions]: with any
    other pad token the call returns as well, and every other field of the
    dictionary is the same. *)
Theorem collate_pad_token_scope (batch : list element) (pad pad' : Z)
    (out : gmap string Tensor2) :
  ppo_rl_collate_fn batch pad = Ok out →
  ∃ out',
    ppo_rl_collate_fn batch pad' = Ok out' ∧
    dom out' = dom out ∧
    ∀ key, key ≠ "input_ids" → key ≠ "actions" → out' !! key = out !! key.
Proof.
  intros Hok.
  assert (Hbase : ∀ key, key ≠ "input_ids" → key ≠ "actions" →
            base_dict batch pad' !! key = base_dict batch pad !! key).
  { intros key H1 H2. unfold base_dict.
    rewrite !lookup_insert. repeat case_decide; congruence. }
  assert (Hdom : dom (base_dict batch pad') = dom (base_dict batch pad)).
  { unfold base_dict. by rewrite !dom_insert_L. }
  destruct (collate_Ok_inv _ _ _ Hok) as [Hne [[Hnone ->]|[Hsome (imgs & Himgs & ->)]]].
  - exists (base_dict batch pad'). split_and!; [|done|done].
    rewrite collate_unfold by done.
    by apply existsb_hasattr_false in Hnone as ->.
  - eexists. split_and!.
    + rewrite collate_unfold by done.
      apply existsb_hasattr in Hsome as ->. by rewrite Himgs.
    + by rewrite !dom_insert_L, Hdom.
    + intros key H1 H2. rewrite !lookup_insert.
      case_decide; [done|]. by apply Hbase.
Qed.

Lemma collate_pad_token_scope_witness :
  ∃ out',
    ppo_rl_collate_fn [Samples.e1; Samples.e2] 0 = Ok out' ∧
    dom out' = dom (base_dict [Samples.e1; Samples.e2] 9) ∧
    ∀ key, key ≠ "input_ids" → key ≠ "actions" →
           out' !! key = base_dict [Samples.e1; Samples.e2] 9 !! key.
Proof.
  apply (collate_pad_token_scope [Samples.e1; Samples.e2] 9 0). reflexivity.
Defined.

Lemma stack_same_length {A : Type} (seqs : list (list A)) (fill : A) (m : nat) :
  Forall (fun s => length s = m) seqs → stack seqs fill = seqs.
Proof.
  intros Hall. unfold stack.
  trans (id <$> seqs); [|apply list_fmap_id]. apply Forall_fmap_ext.
  eapply Forall_impl; [exact Hall|]. intros s Hs. simpl in Hs. unfold pad_to.
  assert (Hle : max_list (length <$> seqs) ≤ m).
  { destruct seqs as [|s0 seqs0]; [simpl; lia|].
    assert (Hne : length <$> s0 :: seqs0 ≠ []) by (intros [=]).
    pose proof (max_list_elem_of _ Hne) as Hin.
    apply list_elem_of_fmap in Hin as (s' & -> & Hs').
    rewrite Forall_forall in Hall. by rewrite (Hall s' Hs'). }
  replace (max_list (length <$> seqs) - length s) with 0 by lia.
  simpl. apply app_nil_r.
Qed.

(** X12.  Where all records of the batch have sequences of one length in a
    field, the batch of that field is the list of these sequences as they
    are: no fill value is written. *)
Theorem collate_equal_lengths (batch : list element) (pad : Z)
    (out : gmap string Tensor2) (m : nat) :
  ppo_rl_collate_fn batch pad = Ok out →
  (Forall (fun el => length (input_ids (fields el)) = m) batch →
     out !! "input_ids" = Some (LongBatch (column input_ids batch))) ∧
  (Forall (fun el => length (actions (fields el)) = m) batch →
     out !! "actions" = Some (LongBatch (column actions batch))) ∧
  (Forall (fun el => length (logprobs (fields el)) = m) batch →
     out !! "logprobs" = Some (FloatBatch (column logprobs batch))) ∧
  (Forall (fun el => length (values (fields el)) = m) batch →
     out !! "values" = Some (FloatBatch (column values batch))) ∧
  (Forall (fun el => length (rewards (fields el)) = m) batch →
     out !! "rewards" = Some (FloatBatch (column rewards batch))).
Proof.
  intros Hok. pose proof (collate_Ok_base _ _ _ Hok) as Hbase.
  split_and!; intros Hall; rewrite Hbase by done; lookup_key;
    do 2 f_equal; apply (stack_same_length _ _ m);
    unfold column; by apply Forall_fmap.
Qed.

Lemma collate_equal_lengths_witness :
  base_dict [Samples.e1; Samples.e1] 9 !! "actions"
  = Some (LongBatch (column actions [Samples.e1; Samples.e1])).
Proof.
  apply (collate_equal_lengths [Samples.e1; Samples.e1] 9 _ 3 eq_refl).
  repeat constructor.
Defined.

(** ** From the sampler to the batch *)

Lemma base_dict_rows batch pad key t :
  base_dict batch pad !! key = Some t → length (row_lengths t) = length batch.
Proof.
  unfold base_dict. intros Ht.
  repeat (apply lookup_insert_Some in Ht as [[_ <-]|[_ Ht]];
          [simpl; by rewrite length_fmap, length_stack, length_column|]).
  by rewrite lookup_empty in Ht.
Qed.

(** Every field of a returned dictionary has one row per record. *)
Lemma collate_rows_count batch pad out key t :
  ppo_rl_collate_fn batch pad = Ok out → out !! key = Some t →
  length (row_lengths t) = length batch.
Proof.
  intros Hok Ht.
  destruct (collate_Ok_inv _ _ _ Hok) as [_ [[_ ->]|[_ (imgs & Himgs & ->)]]].
  - by eapply base_dict_rows.
  - apply lookup_insert_Some in Ht as [[_ <-]|[_ Ht]].
    + simpl. rewrite length_fmap, length_stack. symmetry. by eapply length_mapM.
    + by eapply base_dict_rows.
Qed.

Lemma uniform_sub (l l' : list element) :
  uniform l → Forall (fun el => el ∈ l) l' → uniform l'.
Proof.
  intros [Hall|Hnone] Hsub; [left|right];
    (eapply Forall_impl; [exact Hsub|]); intros el Hel; simpl in Hel.
  - rewrite Forall_forall in Hall. by apply Hall.
  - rewrite Forall_forall in Hnone. by apply Hnone.
Qed.

(** X13.  Over a dataset whose records all expose [image_ids] or all do
    not, with a batch size of at least one: for every group that the sampler
    yields, fetching the records of the group and collating them returns a
    dictionary, and each of its fields has exactly [batch_size] rows. *)
Theorem sampler_groups_collate (dataset : PPORLVisionDataset.t) (bs : Z)
    (fuel : nat) (pad : Z) (groups : list (list Z)) :
  (1 ≤ bs)%Z →
  uniform (PPORLVisionDataset.ppo_rl_elements dataset) →
  PPORLBatchSampler.__iter__ fuel
    (PPORLBatchSampler.mk (PPORLVisionDataset.ppo_rl_elements dataset) bs)
  = Some groups →
  Forall (fun g =>
    ∃ records out,
      fetch dataset g = Some records ∧
      ppo_rl_collate_fn records pad = Ok out ∧
      ∀ key t, out !! key = Some t → len (row_lengths t) = bs) groups.
Proof.
  intros Hbs Huni Hrun.
  pose proof (DatasetMore.iter_valid _ _ _ _ Hrun) as Hvalid.
  destruct (DatasetMore.iter_Some_closed _ _ _ _ Hbs Hrun) as (Hlen & _ & _).
  apply Forall_forall. intros g Hg.
  rewrite Forall_forall in Hvalid, Hlen.
  destruct (DatasetMore.fetch_in_range dataset g (Hvalid g Hg))
    as (records & Hfetch & Hrec).
  pose proof (Hlen g Hg) as Hglen. simpl in Hglen.
  pose proof (Forall2_length _ _ _ Hrec) as Hrlen.
  assert (Hne : records ≠ []).
  { intros ->. unfold len in Hglen. simpl in Hrlen. lia. }
  assert (Huni' : uniform records).
  { apply (uniform_sub (PPORLVisionDataset.ppo_rl_elements dataset)); [done|].
    clear -Hrec. induction Hrec as [|idx el g records Hel _ IH]; constructor.
    - by eapply list_elem_of_lookup_2.
    - done. }
  destruct (collate_uniform records pad Hne Huni') as [out Hok].
  exists records, out. split_and!; [done|done|].
  intros key t Ht. unfold len in *.
  rewrite (collate_rows_count _ _ _ _ _ Hok Ht). lia.
Qed.

Lemma sampler_groups_collate_witness :
  Forall (fun g =>
    ∃ records out,
      fetch (PPORLVisionDataset.mk [Samples.e1; Samples.e2]) g = Some records ∧
      ppo_rl_collate_fn records 9 = Ok out ∧
      ∀ key t, out !! key = Some t → len (row_lengths t) = 3%Z) [[0; 1; 0]]%Z.
Proof.
  apply (sampler_groups_collate (PPORLVisionDataset.mk [Samples.e1; Samples.e2])
           3 3 9).
  - lia.
  - right. repeat constructor; by intros [??].
  - reflexivity.
Defined.

End CollateMore.

(** * Further properties of the run over the object store *)

Module HeapMore.
Import HeapFacts.

Implicit Types (σ : gmap Heap.loc Heap.object).

(** ** Computations that only read *)

Section Reads.
Context {A : Type}.

Lemma reads_only_ret (a : A) : reads_only (mret a : Heap.M A).
Proof. intros σ. by exists (Ok a). Qed.

Lemma reads_only_bind {B : Type} (m : Heap.M B) (k : B → Heap.M A) :
  reads_only m → (∀ b, reads_only (k b)) → reads_only (m ≫= k).
Proof.
  intros Hm Hk σ. destruct (Hm σ) as [r Hr].
  unfold mbind, Heap.M_bind. rewrite Hr. destruct r as [b|e].
  - apply Hk.
  - by exists (Raise e).
Qed.

Lemma reads_only_run (m : Heap.M A) σ r σ' :
  reads_only m → m σ = (r, σ') → σ' = σ.
Proof. intros Hm Hrun. destruct (Hm σ) as [r' Hr']. congruence. Qed.

End Reads.

Lemma reads_only_getattr o name : reads_only (Heap.getattr o name).
Proof.
  intros σ. unfold Heap.getattr.
  destruct (σ !! o) as [[| | |attrs]|]; try (eexists; reflexivity).
  destruct (attrs !! name); eexists; reflexivity.
Qed.

Lemma reads_only_hasattr o name : reads_only (Heap.hasattr o name).
Proof.
  intros σ. unfold Heap.hasattr.
  destruct (σ !! o) as [[| | |attrs]|]; eexists; reflexivity.
Qed.

(** [hasattr] never raises, so neither does the [any] over the batch. *)
Lemma run_any_hasattr_total refs name σ :
  ∃ b, Heap.any_hasattr refs name σ = (Ok b, σ).
Proof.
  induction refs as [|o refs [b IH]]; [by exists false|].
  simpl. unfold mbind, Heap.M_bind, Heap.hasattr.
  destruct (σ !! o) as [[| | |attrs]|]; try by exists b.
  destruct (bool_decide _); [by exists true|by exists b].
Qed.

Lemma reads_only_any_hasattr refs name : reads_only (Heap.any_hasattr refs name).
Proof. intros σ. destruct (run_any_hasattr_total refs name σ) as [b ->]. eauto. Qed.

Lemma reads_only_collect has c o : reads_only (Heap.collect has c o).
Proof.
  unfold Heap.collect.
  repeat (apply reads_only_bind; [apply reads_only_getattr|intros ?]).
  apply reads_only_bind; [|intros ?; apply reads_only_ret].
  destruct has; [|apply reads_only_ret].
  apply reads_only_bind; [apply reads_only_hasattr|].
  intros [|]; [|apply reads_only_ret].
  apply reads_only_bind; [apply reads_only_getattr|].
  intros ?. apply reads_only_ret.
Qed.

Lemma reads_only_for_each {A B : Type} (body : A → B → Heap.M A) a l :
  (∀ a x, reads_only (body a x)) → reads_only (Heap.for_each body a l).
Proof.
  intros Hbody. revert a. induction l as [|x l IH]; intros a; simpl.
  - apply reads_only_ret.
  - apply reads_only_bind; [apply Hbody|]. intros a'. apply IH.
Qed.

(** ** Computations that only allocate *)

Section Allocates.
Context {A : Type}.

Lemma allocates_ret (a : A) : allocates (mret a : Heap.M A).
Proof. intros σ r σ' [= <- <-]. by split. Qed.

Lemma allocates_bind {B : Type} (m : Heap.M B) (k : B → Heap.M A) :
  allocates m → (∀ b, allocates (k b)) → allocates (m ≫= k).
Proof.
  intros Hm Hk σ r σ'. unfold mbind, Heap.M_bind.
  destruct (m σ) as [[b|e] σ1] eqn:Hrun; intros Hrun'.
  - destruct (Hm _ _ _ Hrun) as [S1 _]. destruct (Hk _ _ _ _ Hrun') as [S2 ?].
    split; [by etrans|done].
  - injection Hrun' as <- <-. destruct (Hm _ _ _ Hrun) as [S1 Hne].
    split; [done|]. congruence.
Qed.

End Allocates.

Lemma pad_sequence_no_attribute_error {A : Type} (entries : list (option (list A)))
    (fill : A) :
  pad_sequence entries fill ≠ Raise AttributeError.
Proof.
  unfold pad_sequence. destruct entries; [done|].
  by destruct (mapM id _).
Qed.

Lemma new_inv obj σ l σ' :
  Heap.new obj σ = (Ok l, σ') → σ !! l = None ∧ σ' = <[l := obj]> σ.
Proof.
  unfold Heap.new. intros [= <- <-]. split; [|done].
  apply not_elem_of_dom, is_fresh.
Qed.

Lemma pad_sequence_long_inv es pv σ r σ' :
  Heap.pad_sequence_long es pv σ = (r, σ') →
  (∃ e, r = Raise e ∧ e ≠ AttributeError ∧ σ' = σ) ∨
  (∃ l rows, r = Ok l ∧ σ !! l = None ∧
             σ' = <[l := Heap.Batch (LongBatch rows)]> σ).
Proof.
  unfold Heap.pad_sequence_long.
  pose proof (pad_sequence_no_attribute_error (Heap.read_long σ <$> es) pv) as Hne.
  destruct (pad_sequence _ _) as [rows|e]; intros Hrun.
  - right. unfold Heap.new in Hrun. injection Hrun as <- <-.
    eexists _, rows. split_and!; [done| |done].
    apply not_elem_of_dom, is_fresh.
  - left. injection Hrun as <- <-. exists e. split_and!; [done|congruence|done].
Qed.

Lemma pad_sequence_float_inv es pv σ r σ' :
  Heap.pad_sequence_float es pv σ = (r, σ') →
  (∃ e, r = Raise e ∧ e ≠ AttributeError ∧ σ' = σ) ∨
  (∃ l rows, r = Ok l ∧ σ !! l = None ∧
             σ' = <[l := Heap.Batch (FloatBatch rows)]> σ).
Proof.
  unfold Heap.pad_sequence_float.
  pose proof (pad_sequence_no_attribute_error (Heap.read_float σ <$> es) pv) as Hne.
  destruct (pad_sequence _ _) as [rows|e]; intros Hrun.
  - right. unfold Heap.new in Hrun. injection Hrun as <- <-.
    eexists _, rows. split_and!; [done| |done].
    apply not_elem_of_dom, is_fresh.
  - left. injection Hrun as <- <-. exists e. split_and!; [done|congruence|done].
Qed.

Lemma allocates_pad_sequence_long es pv : allocates (Heap.pad_sequence_long es pv).
Proof.
  intros σ r σ' Hrun.
  destruct (pad_sequence_long_inv _ _ _ _ _ Hrun)
    as [(e & -> & He & ->)|(l & rows & -> & Hl & ->)].
  - split; [done|congruence].
  - split; [by apply insert_subseteq|done].
Qed.

Lemma allocates_pad_sequence_float es pv : allocates (Heap.pad_sequence_float es pv).
Proof.
  intros σ r σ' Hrun.
  destruct (pad_sequence_float_inv _ _ _ _ _ Hrun)
    as [(e & -> & He & ->)|(l & rows & -> & Hl & ->)].
  - split; [done|congruence].
  - split; [by apply insert_subseteq|done].
Qed.

(** X14.  From any store and for any references, a call of the collate
    function only adds objects: every object that was in the store is still
    there unchanged when the call returns or raises.  When it raises
    [AttributeError], nothing has been allocated at all. *)
Theorem collate_store_extension σ (refs : list Heap.loc) (pad : Z)
    (r : result (gmap string Heap.loc)) σ' :
  Heap.ppo_rl_collate_fn refs pad σ = (r, σ') →
  σ ⊆ σ' ∧ (r = Raise AttributeError → σ' = σ).
Proof.
  unfold Heap.ppo_rl_collate_fn, mbind at 1 2, Heap.M_bind at 1 2.
  destruct (run_any_hasattr_total refs "image_ids" σ) as [has ->].
  destruct (reads_only_for_each (Heap.collect has) Heap.empty_containers refs
              (reads_only_collect has) σ) as [rc ->].
  destruct rc as [c|e].
  - intros Hrun.
    assert (Halloc : allocates
      (b_input_ids ← Heap.pad_sequence_long (Heap.c_input_ids c) pad;
       b_actions ← Heap.pad_sequence_long (Heap.c_actions c) pad;
       b_logprobs ← Heap.pad_sequence_float (Heap.c_logprobs c) PrimFloat.zero;
       b_values ← Heap.pad_sequence_float (Heap.c_values c) PrimFloat.zero;
       b_rewards ← Heap.pad_sequence_float (Heap.c_rewards c) PrimFloat.zero;
       let batched_data : gmap string Heap.loc :=
         <["rewards" := b_rewards]>
           (<["values" := b_values]>
             (<["logprobs" := b_logprobs]>
               (<["actions" := b_actions]>
                 (<["input_ids" := b_input_ids]> ∅)))) in
       if has : bool then
         b_image_ids ← Heap.pad_sequence_long (Heap.c_image_ids c) 0%Z;
         mret (<["image_ids" := b_image_ids]> batched_data)
       else mret batched_data)).
    { repeat (apply allocates_bind;
              [first [apply allocates_pad_sequence_long
                     |apply allocates_pad_sequence_float]|intros ?]).
      simpl. destruct has; [|apply allocates_ret].
      apply allocates_bind; [apply allocates_pad_sequence_long|].
      intros ?. apply allocates_ret. }
    destruct (Halloc _ _ _ Hrun) as [Hsub Hne]. split; [done|]. done.
  - intros [= <- <-]. by split.
Qed.

Lemma collate_store_extension_witness :
  ∃ r σ',
    Heap.ppo_rl_collate_fn [1%positive] 0 Heap.sample_store = (r, σ') ∧
    Heap.sample_store ⊆ σ' ∧ (r = Raise AttributeError → σ' = Heap.sample_store).
Proof.
  destruct (Heap.ppo_rl_collate_fn [1%positive] 0 Heap.sample_store)
    as [r σ'] eqn:Hrun.
  exists r, σ'. split; [reflexivity|].
  exact (collate_store_extension Heap.sample_store [1%positive] 0 r σ' Hrun).
Defined.

(** ** The returned tensors *)

Lemma bind_Ok_inv {A B : Type} (m : Heap.M A) (k : A → Heap.M B) σ b σ' :
  (m ≫= k) σ = (Ok b, σ') →
  ∃ a σ1, m σ = (Ok a, σ1) ∧ k a σ1 = (Ok b, σ').
Proof.
  unfold mbind, Heap.M_bind. destruct (m σ) as [[a|e] σ1]; [eauto|done].
Qed.

Lemma pad_sequence_long_Ok es pv σ l σ' :
  Heap.pad_sequence_long es pv σ = (Ok l, σ') →
  σ !! l = None ∧ ∃ t, σ' = <[l := Heap.Batch t]> σ.
Proof.
  intros Hrun. destruct (pad_sequence_long_inv _ _ _ _ _ Hrun)
    as [(e & ? & _)|(l' & rows & [= <-] & Hl & ->)]; [done|eauto].
Qed.

Lemma pad_sequence_float_Ok es pv σ l σ' :
  Heap.pad_sequence_float es pv σ = (Ok l, σ') →
  σ !! l = None ∧ ∃ t, σ' = <[l := Heap.Batch t]> σ.
Proof.
  intros Hrun. destruct (pad_sequence_float_inv _ _ _ _ _ Hrun)
    as [(e & ? & _)|(l' & rows & [= <-] & Hl & ->)]; [done|eauto].
Qed.

(** One [pad_sequence] call of a run that returned. *)
Ltac pad_inv Hrun l :=
  let Hl := fresh "F" l in
  let Hk := fresh "Hrun" in
  apply bind_Ok_inv in Hrun as (l & ? & Hrun & Hk);
  first [apply pad_sequence_long_Ok in Hrun as (Hl & ? & ->)
        |apply pad_sequence_float_Ok in Hrun as (Hl & ? & ->)];
  rename Hk into Hrun.

(** X15.  The tensors of a returned dictionary are new objects: none of
    them was in the store before the call, so none is a tensor of an input
    record, each is a stacked tensor in the store after the call, and no two
    keys of the dictionary share a tensor. *)
Theorem collate_returns_new_tensors σ (refs : list Heap.loc) (pad : Z)
    (d : gmap string Heap.loc) σ' :
  Heap.ppo_rl_collate_fn refs pad σ = (Ok d, σ') →
  (∀ key l, d !! key = Some l →
     σ !! l = None ∧ ∃ t, σ' !! l = Some (Heap.Batch t)) ∧
  (∀ key1 key2 l, d !! key1 = Some l → d !! key2 = Some l → key1 = key2).
Proof.
  unfold Heap.ppo_rl_collate_fn. intros Hrun.
  apply bind_Ok_inv in Hrun as (has & σ0 & Hany & Hrun).
  apply (reads_only_run _ _ _ _ (reads_only_any_hasattr _ _)) in Hany as ->.
  apply bind_Ok_inv in Hrun as (c & σ0 & Hloop & Hrun).
  apply (reads_only_run _ _ _ _
           (reads_only_for_each _ _ _ (reads_only_collect has))) in Hloop as ->.
  pad_inv Hrun l1. pad_inv Hrun l2. pad_inv Hrun l3. pad_inv Hrun l4.
  pad_inv Hrun l5.
  rewrite ?lookup_insert_None in *.
  destruct has.
  - pad_inv Hrun l6. injection Hrun as <- <-.
    rewrite ?lookup_insert_None in *. destruct_and!.
    split.
    + intros key l Hl.
      repeat (apply lookup_insert_Some in Hl as [[_ <-]|[_ Hl]];
              [split; [done|]; simplify_map_eq; by eauto|]).
      by rewrite lookup_empty in Hl.
    + intros key1 key2 l Hk1 Hk2.
      repeat (apply lookup_insert_Some in Hk1 as [[<- <-]|[_ Hk1]];
              [repeat (apply lookup_insert_Some in Hk2 as [[<- ?]|[_ Hk2]];
                       [done || (exfalso; congruence)|]);
               by rewrite lookup_empty in Hk2|]).
      by rewrite lookup_empty in Hk1.
  - injection Hrun as <- <-. destruct_and!.
    split.
    + intros key l Hl.
      repeat (apply lookup_insert_Some in Hl as [[_ <-]|[_ Hl]];
              [split; [done|]; simplify_map_eq; by eauto|]).
      by rewrite lookup_empty in Hl.
    + intros key1 key2 l Hk1 Hk2.
      repeat (apply lookup_insert_Some in Hk1 as [[<- <-]|[_ Hk1]];
              [repeat (apply lookup_insert_Some in Hk2 as [[<- ?]|[_ Hk2]];
                       [done || (exfalso; congruence)|]);
               by rewrite lookup_empty in Hk2|]).
      by rewrite lookup_empty in Hk1.
Qed.

Lemma collate_returns_new_tensors_witness :
  ∃ d σ',
    Heap.ppo_rl_collate_fn [1%positive] 0 Heap.sample_store = (Ok d, σ') ∧
    ∀ key l, d !! key = Some l →
      Heap.sample_store !! l = None ∧ ∃ t, σ' !! l = Some (Heap.Batch t).
Proof.
  destruct (collate_refines Heap.sample_store [1%positive] [Heap.sample_record] 0
              sample_store_repr) as (r & σ' & Hrun & _ & Hout).
  destruct (ppo_rl_collate_fn [Heap.sample_record] 0) as [dv|ev] eqn:Hv;
    [|vm_compute in Hv; discriminate].
  destruct r as [d|e]; [|destruct Hout].
  exists d, σ'. split; [exact Hrun|].
  exact (proj1 (collate_returns_new_tensors _ _ _ _ _ Hrun)).
Defined.

(** ** A record without one of its fields *)

Lemma for_each_app {A B : Type} (body : A → B → Heap.M A) a (l1 l2 : list B) σ :
  Heap.for_each body a (l1 ++ l2) σ
  = (Heap.for_each body a l1 ≫= fun a' => Heap.for_each body a' l2) σ.
Proof.
  revert a σ. induction l1 as [|x l1 IH]; intros a σ; simpl.
  - reflexivity.
  - unfold mbind, Heap.M_bind in *.
    destruct (body a x σ) as [[a'|e] σ1]; [apply IH|reflexivity].
Qed.

Lemma getattr_instance σ o attrs name :
  σ !! o = Some (Heap.Instance attrs) →
  Heap.getattr o name σ
  = match attrs !! name with
    | Some l => (Ok l, σ)
    | None => (Raise AttributeError, σ)
    end.
Proof. intros Ho. unfold Heap.getattr. by rewrite Ho. Qed.

Lemma collect_lacks_field σ has c o :
  lacks_field σ o →
  Heap.collect has c o σ = (Raise AttributeError, σ).
Proof.
  intros Hlacks. unfold Heap.collect, mbind, Heap.M_bind.
  destruct (σ !! o) as [obj|] eqn:Ho;
    [destruct obj as [| | |attrs]|];
    try (unfold Heap.getattr at 1; rewrite Ho; reflexivity).
  destruct (Hlacks attrs Ho) as (name & Hin & Hnone).
  unfold field_names in Hin.
  rewrite (getattr_instance σ o attrs "input_ids" Ho).
  destruct (attrs !! "input_ids") eqn:E1; [|reflexivity].
  rewrite (getattr_instance σ o attrs "actions" Ho).
  destruct (attrs !! "actions") eqn:E2; [|reflexivity].
  rewrite (getattr_instance σ o attrs "logprobs" Ho).
  destruct (attrs !! "logprobs") eqn:E3; [|reflexivity].
  rewrite (getattr_instance σ o attrs "values" Ho).
  destruct (attrs !! "values") eqn:E4; [|reflexivity].
  rewrite (getattr_instance σ o attrs "rewards" Ho).
  destruct (attrs !! "rewards") eqn:E5; [|reflexivity].
  exfalso. repeat (apply elem_of_cons in Hin as [->|Hin]; [congruence|]).
  by apply elem_of_nil in Hin.
Qed.

(** X16.  When the records before it are well formed and an element of the
    batch is not a class instance, or is one without some of the attributes
    [input_ids], [actions], [logprobs], [values], [rewards], the collate
    function raises [AttributeError] and leaves the store as it was. *)
Theorem collate_missing_attribute σ (pre post : list Heap.loc) (o : Heap.loc)
    (records : list element) (pad : Z) :
  Forall2 (Heap.repr σ) pre records →
  lacks_field σ o →
  Heap.ppo_rl_collate_fn (pre ++ o :: post) pad σ = (Raise AttributeError, σ).
Proof.
  intros Hpre Hlacks.
  unfold Heap.ppo_rl_collate_fn, mbind at 1 2, Heap.M_bind at 1 2.
  destruct (run_any_hasattr_total (pre ++ o :: post) "image_ids" σ) as [has ->].
  rewrite for_each_app. unfold mbind at 1, Heap.M_bind at 1.
  destruct (run_for_each σ has pre records Hpre _ _ (empty_containers_repr σ))
    as (c & -> & _).
  simpl. unfold mbind at 1, Heap.M_bind at 1.
  by rewrite collect_lacks_field.
Qed.

Lemma collate_missing_attribute_witness :
  Heap.ppo_rl_collate_fn ([1%positive] ++ 2%positive :: []) 0 Heap.sample_store
  = (Raise AttributeError, Heap.sample_store).
Proof.
  apply (collate_missing_attribute Heap.sample_store [1%positive] [] 2%positive
           [Heap.sample_record] 0).
  - exact sample_store_repr.
  - intros attrs Hattrs. vm_compute in Hattrs. discriminate.
Defined.

End HeapMore.
Module SamplerExamples.
Import PPORLBatchSampler.
Local Open Scope Z_scope.

Example iter_7_3 :
  __iter__ 3 (mk (replicate 7 ()) 3) = Some [[0; 1; 2]; [3; 4; 5]; [6; 0; 1]].
Proof. reflexivity. Qed.

Example iter_5_5 : __iter__ 0 (mk (replicate 5 ()) 5) = Some [[0; 1; 2; 3; 4]].
Proof. reflexivity. Qed.

Example iter_2_5 : __iter__ 5 (mk (replicate 2 ()) 5) = Some [[0; 1; 0; 1; 0]].
Proof. reflexivity. Qed.

Example iter_2_5_short_fuel : __iter__ 1 (mk (replicate 2 ()) 5) = None.
Proof. reflexivity. Qed.

Example len_7_3 : __len__ (mk (replicate 7 ()) 3) = Ok 3.
Proof. reflexivity. Qed.

End SamplerExamples.

Module CollateExamples.
Import Samples.

Example collate_two :
  (d ← ppo_rl_collate_fn [e1; e2] 9; Ok (d !! "actions"))
  = Ok (Some (LongBatch [[1; 2; 3; 9; 9]; [1; 2; 3; 4; 5]]))%Z.
Proof. vm_compute. reflexivity. Qed.

Example collate_vision :
  (d ← ppo_rl_collate_fn [v1; v2] 9; Ok (d !! "image_ids"))
  = Ok (Some (LongBatch [[100; 101; 0]; [200; 201; 202]]))%Z.
Proof. vm_compute. reflexivity. Qed.

End CollateExamples.
